(** * Discord <-> Roblox economy bridge: idempotent ledger, audit sink, transport

    A shallow embedding of the TypeScript sources
      - packages/shared/src/txn.ts      (ProcessedTxnBuffer, applyIdempotentTransaction)
      - apps/api/src/index.ts           (verifySignature, POST /log/transactions)
      - packages/opencloud              (withBackoff, request, updateEconomyProfile)
    together with the properties the specification states about them.

    Conventions of the embedding:
      - a JavaScript [number] that carries a balance or a delta is an integer
        of [Z] (the ledger only ever adds integers; IEEE rounding is not
        modelled); a duration in milliseconds is a rational of [Q];
      - a [Map<string, V>] is a [gmap string V];
      - an exception is the [Err] case of [result]; effects (timers, the
        network, [Math.random]) are threaded through an explicit [World]. *)

From Stdlib Require Import ZArith NArith QArith Lia Lqa Ascii String.
From Stdlib Require Import ZifyNat.
From stdpp Require Import base option list gmap strings pretty.

Open Scope Z_scope.
Open Scope nat_scope.

(** ** Shared types (packages/shared/src/types.ts) *)

Inductive EconomySource := discord | game.

Record ProcessedTransactionRecord := {
  txnId : string;
  delta : Z;
  balanceAfter : Z;
  actor : string;
  source : EconomySource;
  processedAt : Z;
  reason : option string;
}.

Record TransactionResult := {
  balance : Z;
  processed : bool;
  record : ProcessedTransactionRecord;
}.

(** The [params] object of [applyIdempotentTransaction]. *)
Record TxnParams := {
  p_txnId : string;
  p_delta : Z;
  p_actor : string;
  p_source : EconomySource;
  p_reason : option string;
  p_timestamp : option Z;
}.

(** Outcome of code that may throw. *)
Inductive result (E A : Type) :=
| Ok (a : A)
| Err (e : E).
Arguments Ok {E A} a.
Arguments Err {E A} e.

(** ** Array access as JavaScript performs it *)

(** [arr[i]] in a truthiness test: a hole, [undefined] and [null] are all
    falsy, so an out-of-range read and a [null] slot both give [None]. *)
Definition js_get {A} (arr : list (option A)) (i : nat) : option A :=
  mjoin (arr !! i).

(** The same read with the index computed as a JavaScript number: a
    negative index is an absent property. *)
Definition js_get_Z {A} (arr : list (option A)) (i : Z) : option A :=
  if (i <? 0)%Z then None else js_get arr (Z.to_nat i).

(** [arr[i] = x]: in range the slot is overwritten, out of range the array
    is extended (the skipped slots are holes). *)
Definition js_set {A} (arr : list (option A)) (i : nat) (x : option A)
  : list (option A) :=
  if decide (i < length arr) then <[i := x]> arr
  else arr ++ replicate (i - length arr) None ++ [x].

(** ** The processed-transaction ring (class ProcessedTxnBuffer) *)

Module ProcessedTxnBuffer.

Record t := mk {
  buffer : list (option ProcessedTransactionRecord);
  size : nat;
  cursor : nat;
  lookup : gmap string ProcessedTransactionRecord;
}.

(** The object the constructor builds once the size is accepted:
    [new Array(size).fill(null)], cursor 0 and an empty [Map]. *)
Definition fresh (size : nat) : t :=
  {| buffer := replicate size None; size := size;
     cursor := 0; lookup := ∅ |}.

(** [constructor(size = 64)]: a non-positive size throws. *)
Definition new (size : nat) : result string t :=
  if decide (size <= 0) then Err "Ring buffer size must be positive"
  else Ok (fresh size).

Definition default_size : nat := 64.

(** [record(txn)]: the pair of the returned object
    [{inserted, record}] and the buffer after the call. *)
Definition record (b : t) (txn : ProcessedTransactionRecord)
  : (bool * ProcessedTransactionRecord) * t :=
  match lookup b !! txnId txn with
  | Some existing => ((false, existing), b)
  | None =>
    let displaced := js_get (buffer b) (cursor b) in
    let lookup1 :=
      match displaced with
      | Some d => delete (txnId d) (lookup b)
      | None => lookup b
      end in
    ((true, txn),
     {| buffer := js_set (buffer b) (cursor b) (Some txn);
        size := size b;
        cursor := (cursor b + 1) `mod` size b;
        lookup := <[txnId txn := txn]> lookup1 |})
  end.

Definition get (b : t) (id : string) : option ProcessedTransactionRecord :=
  lookup b !! id.

(** [listNewestFirst()]: the loop over [i = 0 .. size-1] pushing every
    truthy slot at index [(cursor - 1 - i + size) % size]; [%] is the
    JavaScript remainder, whose sign follows the dividend. *)
Definition listNewestFirst (b : t) : list ProcessedTransactionRecord :=
  omap (λ i : nat,
          let idx := Z.rem (Z.of_nat (cursor b) - 1 - Z.of_nat i
                            + Z.of_nat (size b)) (Z.of_nat (size b)) in
          js_get_Z (buffer b) idx)
       (seq 0 (size b)).

End ProcessedTxnBuffer.

Abbreviation Ring := ProcessedTxnBuffer.t.

(** ** applyIdempotentTransaction *)

(** [now] is the reading of [Date.now()] at the call. *)
Definition candidate (now : Z) (currentBalance : Z) (params : TxnParams)
  : ProcessedTransactionRecord :=
  {| txnId := p_txnId params;
     delta := p_delta params;
     balanceAfter := (currentBalance + p_delta params)%Z;
     actor := p_actor params;
     source := p_source params;
     reason := p_reason params;
     processedAt := default now (p_timestamp params) |}.

Definition applyIdempotentTransaction (now : Z) (currentBalance : Z)
    (params : TxnParams) (buffer : Ring) : TransactionResult * Ring :=
  let record := candidate now currentBalance params in
  let '((inserted, persisted), buffer') :=
    ProcessedTxnBuffer.record buffer record in
  ({| balance := if inserted then balanceAfter record else currentBalance;
      processed := inserted;
      record := persisted |},
   buffer').

(** A sequence of [record] calls on one ring. *)
Definition record_all (b : Ring) (l : list ProcessedTransactionRecord) : Ring :=
  foldl (λ b r, (ProcessedTxnBuffer.record b r).2) b l.

(** The records of such a sequence that were inserted (those for which
    [record] answered [inserted = true]), oldest first. *)
Fixpoint inserted_log (b : Ring) (l : list ProcessedTransactionRecord)
  : list ProcessedTransactionRecord :=
  match l with
  | [] => []
  | r :: l' =>
    let '((inserted, _), b') := ProcessedTxnBuffer.record b r in
    if inserted then r :: inserted_log b' l' else inserted_log b' l'
  end.

(** A sequence of commands (each with the clock reading at its apply) fed
    through the applier, the balance of one apply being the current balance
    of the next; the results are returned oldest first. *)
Fixpoint applyAll (bal : Z) (buf : Ring) (cmds : list (Z * TxnParams))
  : list TransactionResult * Z * Ring :=
  match cmds with
  | [] => ([], bal, buf)
  | (now, c) :: cs =>
    let '(r, buf') := applyIdempotentTransaction now bal c buf in
    let '(rs, bal', buf'') := applyAll (balance r) buf' cs in
    (r :: rs, bal', buf'')
  end.

(** ** updateEconomyProfile: the profile between its read and its write *)

Record EconomyTransactionCommand := {
  c_txnId : string;
  c_userId : string;
  c_delta : Z;
  c_reason : option string;
  c_actor : string;
  c_source : EconomySource;
}.

Record EconomyProfileData := {
  profile_balance : Z;
  profile_processed : list ProcessedTransactionRecord;
}.

(** [current.data ?? { balance: 0, processed: [] }]. *)
Definition empty_profile : EconomyProfileData :=
  {| profile_balance := 0; profile_processed := [] |}.

(** The object literal [updateEconomyProfile] passes to the applier (it
    has no [timestamp]). *)
Definition command_params (command : EconomyTransactionCommand) : TxnParams :=
  {| p_txnId := c_txnId command; p_delta := c_delta command;
     p_actor := c_actor command; p_source := c_source command;
     p_reason := c_reason command; p_timestamp := None |}.

(** One run of the closure [updateEconomyProfile] retries, from the
    profile it has read to the result and the profile the store holds once
    the conditional write went through: the ring is rebuilt from
    [profile.processed], the command applied, and a processed command
    persisted as [{balance, processed: listNewestFirst().reverse()}]; a
    replay writes nothing. *)
Definition updateEconomyProfile_attempt (now : Z) (profile : EconomyProfileData)
    (command : EconomyTransactionCommand)
  : TransactionResult * EconomyProfileData :=
  let buffer :=
    record_all (ProcessedTxnBuffer.fresh ProcessedTxnBuffer.default_size)
               (profile_processed profile) in
  let '(result, buffer') :=
    applyIdempotentTransaction now (profile_balance profile)
                               (command_params command) buffer in
  if negb (processed result) then (result, profile)
  else (result,
        {| profile_balance := balance result;
           profile_processed :=
             reverse (ProcessedTxnBuffer.listNewestFirst buffer') |}).

(** A sequence of commands applied to one wallet by its single writer,
    every write succeeding. *)
Fixpoint updateAll (profile : EconomyProfileData)
    (cmds : list (Z * EconomyTransactionCommand))
  : list TransactionResult * EconomyProfileData :=
  match cmds with
  | [] => ([], profile)
  | (now, c) :: cs =>
    let '(r, profile') := updateEconomyProfile_attempt now profile c in
    let '(rs, profile'') := updateAll profile' cs in
    (r :: rs, profile'')
  end.

Definition params_of (cmds : list (Z * EconomyTransactionCommand))
  : list (Z * TxnParams) :=
  (λ c, (c.1, command_params c.2)) <$> cmds.

(** ** Abstraction of the ring: the window of the latest insertions *)

(** The latest [n] elements of a list, oldest first. *)
Definition window {A} (n : nat) (l : list A) : list A :=
  drop (length l - n) l.

(** The index a window induces: every record under its [txnId]. *)
Definition index_of (win : list ProcessedTransactionRecord)
  : gmap string ProcessedTransactionRecord :=
  list_to_map ((λ r, (txnId r, r)) <$> win).

(** [ring_inv n b win]: the ring [b] of capacity [n] stores exactly the
    records of [win] (oldest first): read from the cursor on, the slots are
    the still empty ones followed by [win], and the [Map] indexes [win]. *)
Record ring_inv (n : nat) (b : Ring) (win : list ProcessedTransactionRecord)
  : Prop := {
  inv_size : ProcessedTxnBuffer.size b = n;
  inv_length : length (ProcessedTxnBuffer.buffer b) = n;
  inv_cursor : ProcessedTxnBuffer.cursor b < n;
  inv_slots :
    rotate (ProcessedTxnBuffer.cursor b) (ProcessedTxnBuffer.buffer b)
    = replicate (n - length win) None ++ (Some <$> win);
  inv_bound : length win ≤ n;
  inv_nodup : NoDup (txnId <$> win);
  inv_lookup : ProcessedTxnBuffer.lookup b = index_of win;
}.

(** The [txnId]s the ring holds, oldest insertion first (the order in
    which [updateEconomyProfile] persists [processed]). *)
Definition ring_ids (b : Ring) : list string :=
  txnId <$> reverse (ProcessedTxnBuffer.listNewestFirst b).

(** ** Vocabulary of the ledger invariants *)

Definition cmd_ids (cmds : list (Z * TxnParams)) : list string :=
  (λ c, p_txnId c.2) <$> cmds.

Definition sum_delta (cmds : list (Z * TxnParams)) : Z :=
  foldr (λ c acc, (p_delta c.2 + acc)%Z) 0%Z cmds.

(** The commands that carry a [txnId] for the first time, [seen] being the
    identifiers met so far. *)
Fixpoint distinct_first (seen : list string) (cmds : list (Z * TxnParams))
  : list (Z * TxnParams) :=
  match cmds with
  | [] => []
  | c :: cs =>
    if decide (p_txnId c.2 ∈ seen) then distinct_first seen cs
    else c :: distinct_first (seen ++ [p_txnId c.2]) cs
  end.



(** The command [{txnId: id, delta: +1}] of scenario S3. *)
Definition credit_one (id : string) : TxnParams :=
  {| p_txnId := id; p_delta := 1; p_actor := "admin"; p_source := discord;
     p_reason := None; p_timestamp := None |}.

(** The identifiers [T1 .. T65] of scenario S3 and its commands. *)
Definition scenario_ids : list string :=
  (λ i : nat, "T" +:+ pretty i) <$> seq 1 65.

Definition scenario_cmds : list (Z * TxnParams) :=
  (λ id, (0%Z, credit_one id)) <$> scenario_ids.

Definition credit_one_command (id : string) : EconomyTransactionCommand :=
  {| c_txnId := id; c_userId := "123"; c_delta := 1; c_reason := None;
     c_actor := "admin"; c_source := discord |}.

Definition scenario_commands : list (Z * EconomyTransactionCommand) :=
  (λ id, (0%Z, credit_one_command id)) <$> scenario_ids.

(* ================================================================== *)
(** * The audit sink (apps/api/src/index.ts) *)

(** A JavaScript string is modelled by its sequence of code units below
    256; a [Buffer] is a list of bytes, each an [ascii]. *)
Abbreviation Buffer := (list ascii).

(** ** Strings and hexadecimal *)

Definition toLowerCase_char (c : ascii) : ascii :=
  let n := N_of_ascii c in
  if ((65 <=? n) && (n <=? 90) || (192 <=? n) && (n <=? 222) && negb (n =? 215))%N
  then ascii_of_N (n + 32) else c.

Definition toUpperCase_char (c : ascii) : ascii :=
  let n := N_of_ascii c in
  if ((97 <=? n) && (n <=? 122) || (224 <=? n) && (n <=? 254) && negb (n =? 247))%N
  then ascii_of_N (n - 32) else c.

Fixpoint toLowerCase (s : string) : string :=
  match s with
  | EmptyString => EmptyString
  | String c s' => String (toLowerCase_char c) (toLowerCase s')
  end.

Fixpoint toUpperCase (s : string) : string :=
  match s with
  | EmptyString => EmptyString
  | String c s' => String (toUpperCase_char c) (toUpperCase s')
  end.

(** The value of a hexadecimal digit, of either case. *)
Definition unhex (c : ascii) : option N :=
  let n := N_of_ascii c in
  if ((48 <=? n) && (n <=? 57))%N then Some (n - 48)%N
  else if ((97 <=? n) && (n <=? 102))%N then Some (n - 87)%N
  else if ((65 <=? n) && (n <=? 70))%N then Some (n - 55)%N
  else None.

(** The lowercase digit of a value below 16. *)
Definition hex_char (n : N) : ascii :=
  ascii_of_N (if (n <? 10)%N then 48 + n else 87 + n).

(** [buf.toString("hex")] / [digest("hex")]: two lowercase digits a byte. *)
Fixpoint hex_encode (bs : Buffer) : string :=
  match bs with
  | [] => EmptyString
  | b :: bs' =>
    String (hex_char (N_of_ascii b / 16))
      (String (hex_char (N_of_ascii b `mod` 16)) (hex_encode bs'))
  end.

(** [Buffer.from(s, "hex")]: pairs of digits are decoded until the first
    pair that is not hexadecimal; a trailing single character is dropped. *)
Fixpoint hex_decode (s : string) : Buffer :=
  match s with
  | String a (String b rest) =>
    match unhex a, unhex b with
    | Some h, Some l => ascii_of_N (16 * h + l) :: hex_decode rest
    | _, _ => []
    end
  | _ => []
  end.

(** [crypto.timingSafeEqual(a, b)] throws a [RangeError] when the byte
    lengths differ and compares the contents otherwise. *)
Definition timingSafeEqual (a b : Buffer) : result string bool :=
  if decide (length a = length b) then Ok (bool_decide (a = b))
  else Err "Input buffers must have the same byte length".

(** ** What the handler takes from its runtime *)

(** [EconomyEventBroadcast["payload"]], the body's [payload]. *)
Record Payload := {
  pl_txnId : string;
  pl_userId : string;
  pl_delta : Z;
  pl_balance : Z;
  pl_actor : string;
  pl_source : EconomySource;
  pl_reason : option string;
  pl_occurredAt : string;
}.

(** The services of Node the handler calls: the secret of the environment,
    [crypto.createHmac("sha256", key)] and [crypto.createHash("sha256")]
    (both returning the raw digest) and [JSON.stringify]. *)
Record Runtime := {
  HMAC_SECRET : string;
  hmac_sha256 : string → string → Buffer;
  sha256 : string → Buffer;
  JSON_stringify : Payload → string;
}.

(** An HMAC-SHA-256 digest has 32 bytes. *)
Definition hmac_digest_32 (rt : Runtime) : Prop :=
  ∀ key msg, length (hmac_sha256 rt key msg) = 32.

(** The signature a payload must carry: [hmac.digest("hex")]. *)
Definition expected_signature (rt : Runtime) (payload : Payload) : string :=
  hex_encode (hmac_sha256 rt (HMAC_SECRET rt) (JSON_stringify rt payload)).

(** [verifySignature(payload, signature)]; [None] is an absent signature.
    The result is in [result] to make visible that the exception of
    [timingSafeEqual] is caught. *)
Definition verifySignature (rt : Runtime) (payload : Payload)
    (signature : option string) : result string bool :=
  match signature with
  | None => Ok false
  | Some EmptyString => Ok false
  | Some signature =>
    let expected := expected_signature rt payload in
    let normalized := toLowerCase signature in
    if negb (String.length expected =? String.length normalized) then Ok false
    else
      match timingSafeEqual (hex_decode normalized) (hex_decode expected) with
      | Ok r => Ok r
      | Err _ => Ok false
      end
  end.

Definition hashPayload (rt : Runtime) (payload : Payload) : string :=
  hex_encode (sha256 rt (JSON_stringify rt payload)).

(** ** The store behind Prisma *)

Record AuditRow := {
  a_txnId : string;
  a_userId : string;
  a_delta : Z;
  a_actor : string;
  a_source : EconomySource;
  a_reason : option string;
}.

(** [webhookDelivery] maps a key to its [payloadHash]; [auditLog] maps a
    [txnId] to its row ([createdAt] is set by the database and left out). *)
Record Db := {
  webhookDelivery : gmap string string;
  auditLog : gmap string AuditRow;
}.

(** [tx.webhookDelivery.create]: the primary key must be new. *)
Definition webhookDelivery_create (db : Db) (key payloadHash : string)
  : result string Db :=
  match webhookDelivery db !! key with
  | Some _ => Err "Unique constraint failed on the fields: (`key`)"
  | None =>
    Ok {| webhookDelivery := <[key := payloadHash]> (webhookDelivery db);
          auditLog := auditLog db |}
  end.

(** [tx.auditLog.upsert] with an empty [update]. *)
Definition auditLog_upsert (db : Db) (payload : Payload) : Db :=
  match auditLog db !! pl_txnId payload with
  | Some _ => db
  | None =>
    {| webhookDelivery := webhookDelivery db;
       auditLog :=
         <[pl_txnId payload :=
             {| a_txnId := pl_txnId payload; a_userId := pl_userId payload;
                a_delta := pl_delta payload; a_actor := pl_actor payload;
                a_source := pl_source payload;
                a_reason := pl_reason payload |}]> (auditLog db) |}
  end.

(** ** The HTTP exchange *)

Record Request := {
  header_X_Signature : option string;
  header_Idempotency_Key : option string;
  body_idempotencyKey : option string;
  body_signature : option string;
  body_payload : option Payload;
}.

Inductive ResponseBody :=
| ErrorBody (error : string)
| LogResponse (accepted deduped : bool).

Record Response := {
  status : nat;
  body : ResponseBody;
}.

(** [a ?? b]. *)
Definition nullish {A} (a b : option A) : option A :=
  match a with Some x => Some x | None => b end.

(** The callback of [prisma.$transaction]: the database it leaves behind
    when it returns, an error when it throws (the transaction is then
    rolled back). *)
Definition log_transaction (db : Db) (idempotencyKey payloadHash : string)
    (payload : Payload) : result string (ResponseBody * Db) :=
  match webhookDelivery_create db idempotencyKey payloadHash with
  | Err _ =>
    match webhookDelivery db !! idempotencyKey with
    | None => Err "Idempotency key conflict"
    | Some existing =>
      if negb (String.eqb existing payloadHash)
      then Err "Idempotency key conflict"
      else Ok (LogResponse true true, db)
    end
  | Ok db1 => Ok (LogResponse true false, auditLog_upsert db1 payload)
  end.

(** The handler of [POST /log/transactions]: [Err] is an exception that
    reaches [asyncHandler]'s [catch(next)]. *)
Definition postLogTransactions (rt : Runtime) (db : Db) (req : Request)
  : result string (Response * Db) :=
  let signatureHeader := header_X_Signature req in
  let idempotencyKey :=
    nullish (header_Idempotency_Key req) (body_idempotencyKey req) in
  let signature := nullish signatureHeader (body_signature req) in
  match body_payload req with
  | None => Ok ({| status := 400; body := ErrorBody "payload is required" |}, db)
  | Some payload =>
    match verifySignature rt payload signature with
    | Err e => Err e
    | Ok false =>
      Ok ({| status := 401; body := ErrorBody "invalid signature" |}, db)
    | Ok true =>
      match idempotencyKey with
      | None | Some EmptyString =>
        Ok ({| status := 400;
               body := ErrorBody "Idempotency-Key header required" |}, db)
      | Some idempotencyKey =>
        let payloadHash := hashPayload rt payload in
        match log_transaction db idempotencyKey payloadHash payload with
        | Err e => Err e
        | Ok (result, db') => Ok ({| status := 200; body := result |}, db')
        end
      end
    end
  end.

(** The route as the client sees it: an exception of the handler reaches
    the error middleware, which answers 500 [{error: "internal_error"}]. *)
Definition serve (rt : Runtime) (db : Db) (req : Request) : Response * Db :=
  match postLogTransactions rt db req with
  | Ok r => r
  | Err _ => ({| status := 500; body := ErrorBody "internal_error" |}, db)
  end.

(** A runtime for running the handler on examples: the digests are stand-ins
    of the right length, the serialization lists the fields of the payload. *)
Definition demo_digest (msg : string) : Buffer :=
  take 32 (list_ascii_of_string msg ++ replicate 32 "000"%char).

Definition demo_runtime : Runtime :=
  {| HMAC_SECRET := "super-secret-hex";
     hmac_sha256 := λ key msg, demo_digest (key +:+ msg);
     sha256 := demo_digest;
     JSON_stringify := λ p,
       pl_txnId p +:+ "," +:+ pl_userId p +:+ "," +:+ pl_actor p +:+ ","
       +:+ pretty (pl_delta p) |}.

Definition demo_payload (id : string) (d : Z) : Payload :=
  {| pl_txnId := id; pl_userId := "123"; pl_delta := d; pl_balance := d;
     pl_actor := "admin"; pl_source := game; pl_reason := None;
     pl_occurredAt := "2024-01-01T00:00:00Z" |}.

(** A request signed as the game server signs it. *)
Definition demo_request (key : option string) (p : Payload) : Request :=
  {| header_X_Signature := Some (expected_signature demo_runtime p);
     header_Idempotency_Key := key;
     body_idempotencyKey := None;
     body_signature := None;
     body_payload := Some p |}.

Definition empty_db : Db := {| webhookDelivery := ∅; auditLog := ∅ |}.

(* ================================================================== *)
(** * The Open Cloud client (packages/opencloud): retries *)

(** What [Number(header)] makes of a header value. *)
Inductive JsNumber :=
| NaN
| Num (q : Q).

(** An HTTP response as [request] looks at it: the status, the
    [Retry-After] header ([None] when absent or empty, else its reading by
    [Number]) and the [code] of the JSON error body, if any. *)
Record HttpResponse := {
  http_status : Z;
  retry_after : option JsNumber;
  error_code : option Z;
}.

Inductive RequestError :=
| TransientFailure (status : Z)
| RequestFailed (status : Z) (code : option Z)
| FetchRejected.

Inductive Event :=
| EvFetch
| EvDelay (ms : Q).

(** The environment of the client: the responses the server will give to
    the coming fetches, the coming values of [Math.random()], and the
    effects performed so far, oldest first. *)
Record World := {
  net : list HttpResponse;
  rng : list Q;
  trace : list Event;
}.

(** [await delay(ms)]. *)
Definition delay (ms : Q) (w : World) : World :=
  {| net := net w; rng := rng w; trace := trace w ++ [EvDelay ms] |}.

(** [Math.random()]. *)
Definition random (w : World) : Q * World :=
  match rng w with
  | [] => (0%Q, w)
  | r :: rs => (r, {| net := net w; rng := rs; trace := trace w |})
  end.

(** [await fetch(url, ...)]: the next response of the server; the promise
    is rejected when there is none. *)
Definition fetch (w : World) : option HttpResponse * World :=
  match net w with
  | [] => (None, {| net := []; rng := rng w; trace := trace w ++ [EvFetch] |})
  | r :: rs => (Some r, {| net := rs; rng := rng w; trace := trace w ++ [EvFetch] |})
  end.

(** [baseDelay * 2 ** attempt + Math.random() * 100]. *)
Definition backoff_wait (baseDelay : Q) (attempt : nat) (r : Q) : Q :=
  (baseDelay * inject_Z (2 ^ Z.of_nat attempt) + r * 100)%Q.

(** The loop of [withBackoff], entered at [attempt] with
    [left = retries - attempt] further attempts allowed: an attempt that
    fails with none left leaves the loop and its error is thrown. *)
Fixpoint withBackoff_loop {T} (fn : World → result RequestError T * World)
    (baseDelay : Q) (attempt left : nat) (w : World)
  : result RequestError T * World :=
  match fn w with
  | (Ok v, w1) => (Ok v, w1)
  | (Err lastErr, w1) =>
    match left with
    | 0 => (Err lastErr, w1)
    | S left' =>
      let '(r, w2) := random w1 in
      let waitMs := backoff_wait baseDelay attempt r in
      withBackoff_loop fn baseDelay (S attempt) left' (delay waitMs w2)
    end
  end.

Definition withBackoff {T} (fn : World → result RequestError T * World)
    (retries : nat) (baseDelay : Q) (w : World)
  : result RequestError T * World :=
  withBackoff_loop fn baseDelay 0 retries w.

(** The options of [createOpenCloudClient] that govern retries. *)
Record OpenCloudClientOptions := {
  maxRetries : option nat;
  backoffMs : option Q;
}.

Definition maxRetries_of (options : OpenCloudClientOptions) : nat :=
  default 4 (maxRetries options).

Definition backoffMs_of (options : OpenCloudClientOptions) : Q :=
  default 250%Q (backoffMs options).

Definition is_transient (response : HttpResponse) : bool :=
  (http_status response =? 429)%Z || (500 <=? http_status response)%Z.

Definition response_ok (response : HttpResponse) : bool :=
  (200 <=? http_status response)%Z && (http_status response <=? 299)%Z.

(** [retryAfter ? Number(retryAfter) * 1000 : undefined], [None] being
    every falsy outcome ([undefined], [NaN], [0]). *)
Definition retry_after_ms (response : HttpResponse) : option Q :=
  match retry_after response with
  | Some (Num q) =>
    if Qeq_bool (q * 1000) 0 then None else Some (q * 1000)%Q
  | _ => None
  end.

(** The operation [request] hands to [withBackoff]: one fetch and the
    classification of its response. *)
Definition request_attempt (w : World)
  : result RequestError HttpResponse * World :=
  match fetch w with
  | (None, w1) => (Err FetchRejected, w1)
  | (Some response, w1) =>
    if is_transient response then
      let w2 := match retry_after_ms response with
                | Some delayMs => delay delayMs w1
                | None => w1
                end in
      (Err (TransientFailure (http_status response)), w2)
    else if negb (response_ok response) then
      (Err (RequestFailed (http_status response) (error_code response)), w1)
    else (Ok response, w1)
  end.

(** [request(req)]; [retryable] is [req.retryable]. *)
Definition request (options : OpenCloudClientOptions) (retryable : option bool)
    (w : World) : result RequestError HttpResponse * World :=
  withBackoff request_attempt
    (match retryable with Some false => 0 | _ => maxRetries_of options end)
    (backoffMs_of options) w.

Definition default_options : OpenCloudClientOptions :=
  {| maxRetries := None; backoffMs := None |}.

(** The number of fetches in a trace, and the time spent waiting in it. *)
Definition fetches (t : list Event) : nat :=
  foldr (λ e acc, match e with EvFetch => S acc | EvDelay _ => acc end) 0 t.

Definition total_delay (t : list Event) : Q :=
  foldr (λ e acc, match e with EvDelay ms => (ms + acc)%Q | EvFetch => acc end)
        0%Q t.

Definition respond (st : Z) (ra : option JsNumber) : HttpResponse :=
  {| http_status := st; retry_after := ra; error_code := None |}.

(* ================================================================== *)
(** * The rest of the ledger code *)

(** ** The chain the stored records form *)

(** Each record continues the balance of the record before it. *)
Fixpoint chained (l : list ProcessedTransactionRecord) : Prop :=
  match l with
  | r1 :: ((r2 :: _) as rest) =>
    balanceAfter r2 = (balanceAfter r1 + delta r2)%Z ∧ chained rest
  | _ => True
  end.

(** The stored window is a chain that ends at the current balance. *)
Definition ledger_inv (bal : Z) (win : list ProcessedTransactionRecord) : Prop :=
  chained win ∧ ∀ r, last win = Some r → balanceAfter r = bal.

(** ** The Lua ring (roblox/ServerScript.service.lua, [RingBuffer]) *)

Module RingBuffer.

Record t := mk {
  size : nat;
  items : list ProcessedTransactionRecord;
  lookup : gmap string ProcessedTransactionRecord;
}.

(** [RingBuffer:push(record)]: the returned pair [inserted, record] and
    the ring after the call.  The record is appended and indexed first;
    only then, if the ring has grown past its size, the first item is
    removed and its identifier dropped from the index. *)
Definition push (self : t) (record : ProcessedTransactionRecord)
  : (bool * ProcessedTransactionRecord) * t :=
  match lookup self !! txnId record with
  | Some existing => ((false, existing), self)
  | None =>
    let items1 := items self ++ [record] in
    let lookup1 := <[txnId record := record]> (lookup self) in
    if decide (size self < length items1) then
      match items1 with
      | removed :: items2 =>
        ((true, record),
         {| size := size self; items := items2;
            lookup := delete (txnId removed) lookup1 |})
      | [] => ((true, record),
               {| size := size self; items := []; lookup := lookup1 |})
      end
    else
      ((true, record),
       {| size := size self; items := items1; lookup := lookup1 |})
  end.

Definition push_all (self : t) (l : list ProcessedTransactionRecord) : t :=
  foldl (λ self r, (push self r).2) self l.

(** [RingBuffer.new(size, seed)]. *)
Definition new (size : nat) (seed : option (list ProcessedTransactionRecord)) : t :=
  let self := {| size := size; items := []; lookup := ∅ |} in
  match seed with
  | Some seed => push_all self seed
  | None => self
  end.

(** [RingBuffer:list()]. *)
Definition list (self : t) : list ProcessedTransactionRecord := items self.

End RingBuffer.

(** [lua_inv n self win]: the Lua ring of size [n] stores the window. *)
Record lua_inv (n : nat) (self : RingBuffer.t)
    (win : list ProcessedTransactionRecord) : Prop := {
  lua_size : RingBuffer.size self = n;
  lua_items : RingBuffer.items self = win;
  lua_lookup : RingBuffer.lookup self = index_of win;
  lua_nodup : NoDup (txnId <$> win);
  lua_bound : length win ≤ n;
}.

(** ** The Lua command handler ([attachProfile], [applyCommand]) *)

Definition RING_SIZE : nat := 64.

(** What a session holds of [ActiveSessions[userId]]: the wallet data of
    the profile and the ring built over it. *)
Record LuaSession := {
  session_data : EconomyProfileData;
  session_ring : RingBuffer.t;
}.

(** [attachProfile]: the ring is seeded with the stored [processed]. *)
Definition attachProfile (data : EconomyProfileData) : LuaSession :=
  {| session_data := data;
     session_ring := RingBuffer.new RING_SIZE (Some (profile_processed data)) |}.

(** The ledger part of [applyCommand] on an attached session: the session
    afterwards and the record that is broadcast and posted to the audit
    API, which happens for an inserted record only. *)
Definition applyCommand_session (now : Z) (state : LuaSession)
    (command : EconomyTransactionCommand)
  : LuaSession * option ProcessedTransactionRecord :=
  let nextBalance := (profile_balance (session_data state) + c_delta command)%Z in
  let record :=
    {| txnId := c_txnId command; delta := c_delta command;
       balanceAfter := nextBalance; actor := c_actor command;
       source := c_source command; processedAt := now;
       reason := c_reason command |} in
  let '((inserted, existing), ring) := RingBuffer.push (session_ring state) record in
  if negb inserted then
    ({| session_data := session_data state; session_ring := ring |}, None)
  else
    ({| session_data :=
          {| profile_balance := nextBalance;
             profile_processed := RingBuffer.list ring |};
        session_ring := ring |},
     Some record).

(** A sequence of commands handled by the server that holds the session;
    the emitted records are returned oldest first. *)
Fixpoint applyCommands (state : LuaSession)
    (cmds : list (Z * EconomyTransactionCommand))
  : LuaSession * list ProcessedTransactionRecord :=
  match cmds with
  | [] => (state, [])
  | (now, c) :: cs =>
    let '(state', emitted) := applyCommand_session now state c in
    let '(state'', rest) := applyCommands state' cs in
    (state'', from_option (λ r, [r]) [] emitted ++ rest)
  end.

(** [applyCommand] for a user without a session on this server: the
    profile is loaded and attached, the command applied, the profile
    released with the data the session left. *)
Definition applyCommand_offline (now : Z) (data : EconomyProfileData)
    (command : EconomyTransactionCommand)
  : EconomyProfileData * option ProcessedTransactionRecord :=
  let '(state, emitted) := applyCommand_session now (attachProfile data) command in
  (session_data state, emitted).

(** The records of the processed results, oldest first. *)
Definition processed_records (rs : list TransactionResult)
  : list ProcessedTransactionRecord :=
  record <$> filter (λ r, processed r = true) rs.

(** ** What the bot reads of a profile (apps/bot/src/index.ts) *)

Record DataStoreEntry := {
  data : option EconomyProfileData;
  version : option string;
}.

(** [profile.data?.processed?.find((entry) => entry.txnId === txnId)],
    the test of [waitForTransaction]. *)
Definition find_processed (profile : DataStoreEntry) (id : string)
  : option ProcessedTransactionRecord :=
  match data profile with
  | None => None
  | Some d => snd <$> list_find (λ entry, txnId entry = id) (profile_processed d)
  end.

(** What [handleBalance] shows: [profile.data?.balance ?? 0] and the
    [txnId] of the last element of [processed], if any. *)
Definition balance_view (profile : DataStoreEntry) : Z * option string :=
  let balance := from_option profile_balance 0%Z (data profile) in
  let processed := from_option profile_processed [] (data profile) in
  (balance, txnId <$> last processed).

(** ** The audit row of a payload *)

(** The row [auditLog.upsert] creates for a payload. *)
Definition audit_row (payload : Payload) : AuditRow :=
  {| a_txnId := pl_txnId payload; a_userId := pl_userId payload;
     a_delta := pl_delta payload; a_actor := pl_actor payload;
     a_source := pl_source payload; a_reason := pl_reason payload |}.

(** ** The data-store calls of the Open Cloud client *)

(** What the client reads of a response and of its clock:
    [await response.json()], the [roblox-entry-version] header and
    [Date.now()]. *)
Record StoreEnv := {
  response_json : HttpResponse → EconomyProfileData;
  response_version : HttpResponse → option string;
  clock : World → Z;
}.

(** The error [request] throws for a response that is not accepted. *)
Definition failure_of (response : HttpResponse) : RequestError :=
  if is_transient response then TransientFailure (http_status response)
  else RequestFailed (http_status response) (error_code response).

Definition attempt_fails (response : HttpResponse) : bool :=
  is_transient response || negb (response_ok response).

(** [err.code === 1]. *)
Definition is_missing_entry (err : RequestError) : bool :=
  match err with
  | RequestFailed _ (Some 1%Z) => true
  | _ => false
  end.

(** What [getDataStoreEntry] makes of an accepted response: no data for
    a 204, else the body and the version header. *)
Definition entry_of_response (env : StoreEnv) (response : HttpResponse)
  : DataStoreEntry :=
  if (http_status response =? 204)%Z
  then {| data := None; version := None |}
  else {| data := Some (response_json env response);
          version := response_version env response |}.

(** [getDataStoreEntry(entryKey)]: a 204 and the error of code 1 both
    read as an entry without data. *)
Definition getDataStoreEntry (env : StoreEnv) (options : OpenCloudClientOptions)
    (w : World) : result RequestError DataStoreEntry * World :=
  match request options None w with
  | (Ok response, w1) => (Ok (entry_of_response env response), w1)
  | (Err err, w1) =>
    if is_missing_entry err then (Ok {| data := None; version := None |}, w1)
    else (Err err, w1)
  end.

(** The profile [updateEconomyProfile] works on after such a read. *)
Definition profile_read (env : StoreEnv) (response : HttpResponse)
  : EconomyProfileData :=
  default empty_profile (data (entry_of_response env response)).

(** [postDataStoreEntry]: a request made with [retryable: false]. *)
Definition postDataStoreEntry (options : OpenCloudClientOptions) (w : World)
  : result RequestError HttpResponse * World :=
  request options (Some false) w.

(** The closure [updateEconomyProfile] hands to [withBackoff]: read,
    apply, and write when the command was processed. *)
Definition updateEconomyProfile_closure (env : StoreEnv)
    (options : OpenCloudClientOptions) (command : EconomyTransactionCommand)
    (w : World)
  : result RequestError (TransactionResult * EconomyProfileData) * World :=
  match getDataStoreEntry env options w with
  | (Err err, w1) => (Err err, w1)
  | (Ok current, w1) =>
    let profile := default empty_profile (data current) in
    let '(result, updatedProfile) :=
      updateEconomyProfile_attempt (clock env w1) profile command in
    if negb (processed result) then (Ok (result, profile), w1)
    else
      match postDataStoreEntry options w1 with
      | (Err err, w2) => (Err err, w2)
      | (Ok _, w2) => (Ok (result, updatedProfile), w2)
      end
  end.

Definition updateEconomyProfile (env : StoreEnv)
    (options : OpenCloudClientOptions) (command : EconomyTransactionCommand)
    (w : World)
  : result RequestError (TransactionResult * EconomyProfileData) * World :=
  withBackoff (updateEconomyProfile_closure env options command)
    (maxRetries_of options) (backoffMs_of options) w.

(** The time spent in the backoff waits of [left] retries that start at
    [attempt], jitter aside: [baseDelay * 2^attempt * (2^left - 1)]. *)
Definition backoff_budget (baseDelay : Q) (attempt left : nat) : Q :=
  (baseDelay * inject_Z (2 ^ Z.of_nat attempt)
   * (inject_Z (2 ^ Z.of_nat left) - 1))%Q.

(** A store environment for examples: every body reads as one profile. *)
Definition demo_env (stored : EconomyProfileData) : StoreEnv :=
  {| response_json := λ _, stored;
     response_version := λ _, Some "v1";
     clock := λ w, Z.of_nat (length (trace w)) |}.

(** ** The signer of the game server (roblox/ServerScript.service.lua) *)

(** Lua numbers that are integers are integers of [Z]; a Lua string is a
    [string], one character a byte; tables are lists counted from 0, so an
    index [i] of the source is [i - 1] here. *)
Module LuaCrypto.

(** A number as the [bit32] library takes it: modulo 2^32. *)
Definition u32 (x : Z) : Z := (x `mod` 0x100000000)%Z.

Definition mod32 (value : Z) : Z := (value `mod` 0x100000000)%Z.

Definition band (a b : Z) : Z := Z.land (u32 a) (u32 b).
Definition bor (a b : Z) : Z := Z.lor (u32 a) (u32 b).
Definition bxor (a b : Z) : Z := Z.lxor (u32 a) (u32 b).
Definition bnot (a : Z) : Z := (0xFFFFFFFF - u32 a)%Z.
Definition rshift (a n : Z) : Z := Z.shiftr (u32 a) n.
Definition lshift (a n : Z) : Z := u32 (Z.shiftl (u32 a) n).
Definition rrotate (a n : Z) : Z :=
  Z.lor (Z.shiftr (u32 a) n) (u32 (Z.shiftl (u32 a) (32 - n))).

Definition char_of (byte : Z) : ascii := ascii_of_N (Z.to_N byte).
Definition byte_of (c : ascii) : Z := Z.of_N (N_of_ascii c).

(** [toBytes(words)]: four characters a word, most significant first. *)
Definition toBytes (words : list Z) : string :=
  string_of_list_ascii
    (words ≫= λ word,
       [char_of (band (rshift word 24) 0xFF); char_of (band (rshift word 16) 0xFF);
        char_of (band (rshift word 8) 0xFF); char_of (band word 0xFF)]).

Definition K : list Z :=
  [0x428A2F98; 0x71374491; 0xB5C0FBCF; 0xE9B5DBA5; 0x3956C25B; 0x59F111F1; 0x923F82A4; 0xAB1C5ED5;
   0xD807AA98; 0x12835B01; 0x243185BE; 0x550C7DC3; 0x72BE5D74; 0x80DEB1FE; 0x9BDC06A7; 0xC19BF174;
   0xE49B69C1; 0xEFBE4786; 0x0FC19DC6; 0x240CA1CC; 0x2DE92C6F; 0x4A7484AA; 0x5CB0A9DC; 0x76F988DA;
   0x983E5152; 0xA831C66D; 0xB00327C8; 0xBF597FC7; 0xC6E00BF3; 0xD5A79147; 0x06CA6351; 0x14292967;
   0x27B70A85; 0x2E1B2138; 0x4D2C6DFC; 0x53380D13; 0x650A7354; 0x766A0ABB; 0x81C2C92E; 0x92722C85;
   0xA2BFE8A1; 0xA81A664B; 0xC24B8B70; 0xC76C51A3; 0xD192E819; 0xD6990624; 0xF40E3585; 0x106AA070;
   0x19A4C116; 0x1E376C08; 0x2748774C; 0x34B0BCB5; 0x391C0CB3; 0x4ED8AA4A; 0x5B9CCA4F; 0x682E6FF3;
   0x748F82EE; 0x78A5636F; 0x84C87814; 0x8CC70208; 0x90BEFFFA; 0xA4506CEB; 0xBEF9A3F7; 0xC67178F2]%Z.

(** The loop [while (#bytes % 64) ~= 56 do table.insert(bytes, 0x00) end],
    run for at most [fuel] iterations. *)
Fixpoint pad_zeros (fuel : nat) (bytes : list Z) : list Z :=
  if decide (length bytes `mod` 64 = 56) then bytes
  else match fuel with
       | 0 => bytes
       | S fuel' => pad_zeros fuel' (bytes ++ [0%Z])
       end.

(** The bytes [sha256Binary] hashes: the message, [0x80], the zeros and
    the bit length on eight bytes. *)
Definition padded (message : string) : list Z :=
  let messageLength := String.length message in
  let bytes := (byte_of <$> list_ascii_of_string message) ++ [0x80%Z] in
  let bytes := pad_zeros 64 bytes in
  let bitLength := (Z.of_nat messageLength * 8)%Z in
  let high := (bitLength / 0x100000000)%Z in
  let low := (bitLength `mod` 0x100000000)%Z in
  bytes
  ++ ((λ shift, band (rshift high shift) 0xFF) <$> [24; 16; 8; 0]%Z)
  ++ ((λ shift, band (rshift low shift) 0xFF) <$> [24; 16; 8; 0]%Z).

(** [bytes[i]] and [w[i]] for an index inside the table. *)
Definition at_ (l : list Z) (i : nat) : Z := default 0%Z (l !! i).

(** The message schedule of the chunk that starts at byte [chunk]
    (counted from 0): sixteen words read from the bytes, forty-eight
    derived from them. *)
Definition schedule (bytes : list Z) (chunk : nat) : list Z :=
  let w16 :=
    (λ i : nat,
       let base := chunk + i * 4 in
       bor (bor (bor (lshift (at_ bytes base) 24) (lshift (at_ bytes (base + 1)) 16))
                (lshift (at_ bytes (base + 2)) 8))
           (at_ bytes (base + 3))) <$> seq 0 16 in
  foldl (λ w (i : nat),
           let s0 := bxor (bxor (rrotate (at_ w (i - 15)) 7) (rrotate (at_ w (i - 15)) 18))
                          (rshift (at_ w (i - 15)) 3) in
           let s1 := bxor (bxor (rrotate (at_ w (i - 2)) 17) (rrotate (at_ w (i - 2)) 19))
                          (rshift (at_ w (i - 2)) 10) in
           w ++ [mod32 (at_ w (i - 16) + s0 + at_ w (i - 7) + s1)])
        w16 (seq 16 48).

Definition State : Type := Z * Z * Z * Z * Z * Z * Z * Z.

(** One of the sixty-four rounds. *)
Definition round (w : list Z) (st : State) (i : nat) : State :=
  let '(a, b, c, d, e, f, g, hh) := st in
  let S1 := bxor (bxor (rrotate e 6) (rrotate e 11)) (rrotate e 25) in
  let ch := bxor (band e f) (band (bnot e) g) in
  let temp1 := mod32 (hh + S1 + ch + at_ K i + at_ w i) in
  let S0 := bxor (bxor (rrotate a 2) (rrotate a 13)) (rrotate a 22) in
  let maj := bxor (bxor (band a b) (band a c)) (band b c) in
  let temp2 := mod32 (S0 + maj) in
  (mod32 (temp1 + temp2), a, b, c, mod32 (d + temp1), e, f, g).

(** The body of the loop over the chunks. *)
Definition compress (bytes : list Z) (h : State) (chunk : nat) : State :=
  let w := schedule bytes chunk in
  let '(a, b, c, d, e, f, g, hh) := foldl (round w) h (seq 0 64) in
  let '(h0, h1, h2, h3, h4, h5, h6, h7) := h in
  (mod32 (h0 + a), mod32 (h1 + b), mod32 (h2 + c), mod32 (h3 + d),
   mod32 (h4 + e), mod32 (h5 + f), mod32 (h6 + g), mod32 (h7 + hh)).

Definition initial : State :=
  (0x6A09E667, 0xBB67AE85, 0x3C6EF372, 0xA54FF53A,
   0x510E527F, 0x9B05688C, 0x1F83D9AB, 0x5BE0CD19)%Z.

(** [sha256Binary(message)]; the loop [for chunk = 1, #bytes, 64] runs
    once for every started block of 64 bytes. *)
Definition sha256Binary (message : string) : string :=
  let bytes := padded message in
  let chunks := (λ k, k * 64) <$> seq 0 ((length bytes + 63) / 64) in
  let '(h0, h1, h2, h3, h4, h5, h6, h7) := foldl (compress bytes) initial chunks in
  toBytes [h0; h1; h2; h3; h4; h5; h6; h7].

(** [toHex(str)]: [string.format("%02x", byte)] for every character. *)
Definition toHex (str : string) : string :=
  hex_encode (list_ascii_of_string str).

Definition xor_pad (key : string) (pad : Z) : string :=
  string_of_list_ascii
    ((λ c, char_of (bxor (byte_of c) pad)) <$> list_ascii_of_string key).

Definition hmacSha256 (key message : string) : string :=
  let blockSize := 64 in
  let key := if decide (blockSize < String.length key) then sha256Binary key else key in
  let key :=
    if decide (String.length key < blockSize)
    then key +:+ string_of_list_ascii (replicate (blockSize - String.length key) (char_of 0))
    else key in
  let oKeyPad := xor_pad key 0x5C in
  let iKeyPad := xor_pad key 0x36 in
  let inner := sha256Binary (iKeyPad +:+ message) in
  let digest := sha256Binary (oKeyPad +:+ inner) in
  toHex digest.

End LuaCrypto.

(** Answers that make one update as expensive as it can get with the
    default options: five times over, four refused reads, an accepted
    read and a refused write. *)
Definition worst_case_net : list HttpResponse :=
  concat (replicate 5 (replicate 4 (respond 503 None)
                       ++ [respond 200 None; respond 409 None])).

(* ================================================================== *)
(** * Properties of the ring *)

Section RingFacts.
Implicit Types (b : Ring) (win l : list ProcessedTransactionRecord).
Implicit Types (r txn : ProcessedTransactionRecord).

Lemma rotate_in_range {A} (c : nat) (s : list A) :
  c < length s → rotate c s = drop c s ++ take c s.
Proof. intros Hc. unfold rotate. by rewrite Nat.mod_small. Qed.

Lemma rotate_at_split {A} (a d : list A) (y : A) :
  rotate (length a) (a ++ y :: d) = y :: d ++ a.
Proof.
  rewrite rotate_in_range by (rewrite length_app; simpl; lia).
  rewrite drop_app_length, take_app_length. done.
Qed.

Lemma rotate_past_split {A} (a d : list A) (x : A) :
  rotate ((length a + 1) `mod` length (a ++ x :: d)) (a ++ x :: d)
  = d ++ a ++ [x].
Proof.
  destruct d as [|z d].
  - rewrite length_app. simpl. rewrite Nat.Div0.mod_same.
    unfold rotate. rewrite Nat.Div0.mod_0_l, drop_0, take_0.
    by rewrite (right_id_L [] (++)).
  - rewrite Nat.mod_small by (rewrite length_app; simpl; lia).
    rewrite (cons_middle x a (z :: d)), (assoc_L (++)).
    replace (length a + 1) with (length (a ++ [x]))
      by (rewrite length_app; simpl; lia).
    by rewrite rotate_at_split.
Qed.

(** Writing at the cursor and advancing it dequeues the slot under the
    cursor and enqueues the written value. *)
Lemma rotate_write {A} (c : nat) (s : list A) (x : A) :
  c < length s →
  rotate ((c + 1) `mod` length s) (<[c := x]> s) = tail (rotate c s) ++ [x].
Proof.
  intros Hc.
  destruct (lookup_lt_is_Some_2 s c Hc) as [y Hy].
  pose proof (take_drop_middle s c y Hy) as Hs.
  assert (length (take c s) = c) as Hlen by (rewrite length_take; lia).
  remember (take c s) as a eqn:Ea. remember (drop (S c) s) as d eqn:Ed.
  clear Ea Ed Hy Hc. subst s c.
  rewrite insert_app_r_alt, Nat.sub_diag by lia. simpl.
  replace (length (a ++ y :: d)) with (length (a ++ x :: d))
    by (rewrite !length_app; done).
  rewrite rotate_past_split, rotate_at_split. simpl.
  by rewrite <-(assoc_L (++)).
Qed.

(** Reading the slots backwards from the cursor, as [listNewestFirst]
    does, is reading the rotation in reverse. *)
Lemma listNewestFirst_rotate b :
  ProcessedTxnBuffer.size b = length (ProcessedTxnBuffer.buffer b) →
  ProcessedTxnBuffer.cursor b < ProcessedTxnBuffer.size b →
  ProcessedTxnBuffer.listNewestFirst b
  = omap id (reverse (rotate (ProcessedTxnBuffer.cursor b)
                             (ProcessedTxnBuffer.buffer b))).
Proof.
  destruct b as [s n c m]. simpl. intros -> Hc.
  unfold ProcessedTxnBuffer.listNewestFirst. simpl.
  apply list_omap_ext, Forall2_same_length_lookup_2.
  { by rewrite length_seq, length_reverse, length_rotate. }
  intros i j o [-> Hi]%lookup_seq Ho.
  rewrite reverse_lookup in Ho by (by rewrite length_rotate).
  rewrite length_rotate in Ho.
  rewrite lookup_rotate_r in Ho by lia.
  unfold rotate_nat_add in Ho. simpl.
  rewrite Z.rem_mod_nonneg by lia.
  replace (Z.of_nat c - 1 - Z.of_nat i + Z.of_nat (length s))%Z
    with (Z.of_nat c + Z.of_nat (length s - S i))%Z by lia.
  unfold js_get_Z, js_get.
  destruct (Z.ltb_spec ((Z.of_nat c + Z.of_nat (length s - S i))
                        `mod` Z.of_nat (length s)) 0) as [Hneg|_].
  { pose proof (Z.mod_pos_bound (Z.of_nat c + Z.of_nat (length s - S i))
                                (Z.of_nat (length s))). lia. }
  by rewrite Ho.
Qed.

Lemma window_short {A} (n : nat) (l : list A) :
  length l ≤ n → window n l = l.
Proof. intros H. unfold window. by replace (length l - n) with 0 by lia. Qed.

Lemma window_full_snoc {A} (n : nat) (w : A) (rest : list A) (x : A) :
  length (w :: rest) = n → window n ((w :: rest) ++ [x]) = rest ++ [x].
Proof.
  intros H. unfold window. rewrite length_app. simpl in *.
  by replace (S (length rest + 1) - n) with 1 by lia.
Qed.

Lemma length_window {A} (n : nat) (l : list A) :
  length (window n l) = length l `min` n.
Proof. unfold window. rewrite length_drop. lia. Qed.

(** Windows compose: what is kept of the latest insertions after more
    insertions does not depend on what had already been dropped. *)
Lemma window_window_app {A} (n : nat) (l k : list A) :
  window n (window n l ++ k) = window n (l ++ k).
Proof.
  unfold window. rewrite !length_app, length_drop, !drop_app, drop_drop.
  rewrite length_drop. f_equal; f_equal; lia.
Qed.

Lemma js_get_cursor {A} (c : nat) (s : list (option A)) :
  c < length s → js_get s c = mjoin (head (rotate c s)).
Proof.
  intros Hc. unfold js_get. rewrite head_lookup, lookup_rotate_r by lia.
  by rewrite rotate_nat_add_0.
Qed.

Lemma index_of_cons r win :
  index_of (r :: win) = <[txnId r := r]> (index_of win).
Proof. done. Qed.

Lemma index_of_snoc win r :
  txnId r ∉ txnId <$> win →
  index_of (win ++ [r]) = <[txnId r := r]> (index_of win).
Proof.
  intros Hr. unfold index_of. rewrite fmap_app. simpl.
  apply list_to_map_snoc. by rewrite <-list_fmap_compose.
Qed.

Lemma index_of_None win (k : string) :
  index_of win !! k = None ↔ k ∉ txnId <$> win.
Proof.
  unfold index_of. rewrite <-not_elem_of_list_to_map.
  by rewrite <-list_fmap_compose.
Qed.

Lemma index_of_Some win (k : string) r :
  NoDup (txnId <$> win) →
  index_of win !! k = Some r ↔ r ∈ win ∧ txnId r = k.
Proof.
  intros Hnd. unfold index_of. rewrite <-elem_of_list_to_map.
  - rewrite list_elem_of_fmap. naive_solver.
  - by rewrite <-list_fmap_compose.
Qed.

(** A replayed [txnId] leaves the ring as it is and returns the record
    stored under it. *)
Lemma record_known b txn e :
  ProcessedTxnBuffer.lookup b !! txnId txn = Some e →
  ProcessedTxnBuffer.record b txn = ((false, e), b).
Proof. intros H. unfold ProcessedTxnBuffer.record. by rewrite H. Qed.

(** A new [txnId] is inserted; the stored window slides by one. *)
Lemma record_fresh n b win txn :
  ring_inv n b win →
  ProcessedTxnBuffer.lookup b !! txnId txn = None →
  ∃ b', ProcessedTxnBuffer.record b txn = ((true, txn), b')
        ∧ ring_inv n b' (window n (win ++ [txn])).
Proof.
  intros [Hsz Hlen Hc Hslots Hb Hnd Hlk] Hnone.
  unfold ProcessedTxnBuffer.record. rewrite Hnone.
  eexists; split; [reflexivity|].
  assert (txnId txn ∉ txnId <$> win) as Hfresh
    by (by rewrite <-index_of_None, <-Hlk).
  rewrite js_get_cursor, Hslots by lia.
  unfold js_set. rewrite decide_True by lia.
  destruct (decide (length win < n)) as [Hlt|Hfull].
  - (* an empty slot is under the cursor *)
    rewrite window_short by (rewrite length_app; simpl; lia).
    replace (n - length win) with (S (n - length win - 1)) by lia. simpl.
    split; simpl.
    + done.
    + by rewrite length_insert.
    + rewrite Hsz. apply Nat.mod_upper_bound. lia.
    + rewrite Hsz, <-Hlen at 1. rewrite rotate_write by lia.
      rewrite Hslots.
      replace (n - length win) with (S (n - length win - 1)) by lia. simpl.
      rewrite length_app, fmap_app, <-(assoc_L (++)). simpl.
      do 2 f_equal. lia.
    + rewrite length_app. simpl. lia.
    + rewrite fmap_app. apply NoDup_app. split_and!; [done| |apply NoDup_singleton].
      intros k Hk ->%list_elem_of_singleton. done.
    + by rewrite Hlk, index_of_snoc.
  - (* the ring is full: the oldest record is displaced *)
    assert (length win = n) as Hn by lia.
    destruct win as [|w rest]; [simpl in *; lia|].
    rewrite window_full_snoc by done.
    rewrite Hn, Nat.sub_diag. simpl.
    apply NoDup_cons in Hnd as [Hw Hnd]. fold (fmap txnId rest) in Hw, Hnd.
    apply not_elem_of_cons in Hfresh as [Hne Hfresh].
    split; simpl.
    + done.
    + by rewrite length_insert.
    + rewrite Hsz. apply Nat.mod_upper_bound. lia.
    + rewrite Hsz, <-Hlen at 1. rewrite rotate_write by lia.
      rewrite Hslots, Hn, Nat.sub_diag. simpl.
      rewrite length_app, fmap_app. simpl in *.
      by replace (n - (length rest + 1)) with 0 by lia.
    + rewrite length_app. simpl in *. lia.
    + rewrite fmap_app. apply NoDup_app. split_and!; [done| |apply NoDup_singleton].
      intros k Hk ->%list_elem_of_singleton. done.
    + rewrite Hlk, index_of_cons, delete_insert_id by (by apply index_of_None).
      by rewrite index_of_snoc.
Qed.

Lemma ring_inv_fresh n : 0 < n → ring_inv n (ProcessedTxnBuffer.fresh n) [].
Proof.
  intros Hn. split; simpl; try done.
  - by rewrite length_replicate.
  - rewrite rotate_replicate, Nat.sub_0_r. by rewrite (right_id_L [] (++)).
  - lia.
  - apply NoDup_nil_2.
Qed.

Lemma ring_inv_list n b win :
  ring_inv n b win → ProcessedTxnBuffer.listNewestFirst b = reverse win.
Proof.
  intros [Hsz Hlen Hc Hslots Hb Hnd Hlk].
  rewrite listNewestFirst_rotate by lia. rewrite Hslots.
  rewrite reverse_app, omap_app, <-fmap_reverse.
  rewrite <-(list_fmap_id (reverse win)) at 2.
  rewrite (list_fmap_alt id (reverse win)).
  rewrite reverse_replicate.
  assert (∀ k, omap id (replicate k (@None ProcessedTransactionRecord)) = [])
    as -> by (intros k; induction k; done).
  rewrite (right_id_L [] (++)).
  generalize (reverse win). intros l. induction l; simpl; by f_equal.
Qed.

Lemma ring_inv_ids n b win :
  ring_inv n b win → ring_ids b = txnId <$> win.
Proof.
  intros H. unfold ring_ids. by rewrite (ring_inv_list n b win H), reverse_involutive.
Qed.

Lemma ring_inv_map_size n b win :
  ring_inv n b win → size (ProcessedTxnBuffer.lookup b) = length win.
Proof.
  intros [Hsz Hlen Hc Hslots Hb Hnd Hlk]. rewrite Hlk. unfold index_of.
  rewrite map_size_list_to_map, length_fmap; [done|].
  by rewrite <-list_fmap_compose.
Qed.

Lemma ring_inv_get_None n b win (k : string) :
  ring_inv n b win →
  ProcessedTxnBuffer.get b k = None ↔ k ∉ txnId <$> win.
Proof.
  intros H. unfold ProcessedTxnBuffer.get.
  rewrite (inv_lookup _ _ _ H). apply index_of_None.
Qed.

Lemma ring_inv_get_Some n b win (k : string) r :
  ring_inv n b win →
  ProcessedTxnBuffer.get b k = Some r ↔ r ∈ win ∧ txnId r = k.
Proof.
  intros H. unfold ProcessedTxnBuffer.get.
  rewrite (inv_lookup _ _ _ H). apply index_of_Some, (inv_nodup _ _ _ H).
Qed.

(** After any sequence of [record] calls the ring stores the latest [n]
    of the records inserted so far. *)
Lemma record_all_inv n b win l :
  ring_inv n b win →
  ring_inv n (record_all b l) (window n (win ++ inserted_log b l)).
Proof.
  revert b win. induction l as [|r l IH]; intros b win Hinv.
  { simpl. rewrite (right_id_L [] (++)), window_short; [done|].
    apply (inv_bound _ _ _ Hinv). }
  unfold record_all. simpl. fold (record_all (ProcessedTxnBuffer.record b r).2 l).
  destruct (ProcessedTxnBuffer.lookup b !! txnId r) as [e|] eqn:Hlk.
  - rewrite (record_known b r e Hlk). simpl. by apply IH.
  - destruct (record_fresh n b win r Hinv Hlk) as (b' & -> & Hinv'). simpl.
    rewrite (cons_middle r win), (assoc_L (++)), <-window_window_app.
    by apply IH.
Qed.

(** Pairwise distinct, new identifiers are all inserted, in order. *)
Lemma record_all_distinct n b win l :
  ring_inv n b win →
  NoDup (txnId <$> l) →
  (∀ r, r ∈ l → txnId r ∉ txnId <$> win) →
  ring_inv n (record_all b l) (window n (win ++ l)).
Proof.
  revert b win. induction l as [|r l IH]; intros b win Hinv Hnd Hnew.
  - rewrite (right_id_L [] (++)). simpl.
    rewrite window_short; [done|]. apply (inv_bound _ _ _ Hinv).
  - unfold record_all. simpl. fold (record_all (ProcessedTxnBuffer.record b r).2 l).
    apply NoDup_cons in Hnd as [Hr Hnd]. fold (fmap txnId l) in Hr, Hnd.
    assert (ProcessedTxnBuffer.lookup b !! txnId r = None) as Hlk.
    { rewrite (inv_lookup _ _ _ Hinv). apply index_of_None, Hnew. left. }
    destruct (record_fresh n b win r Hinv Hlk) as (b' & -> & Hinv'). simpl.
    rewrite (cons_middle r win l), (assoc_L (++)), <-window_window_app.
    apply IH; [done..|].
    intros r' Hr' Hin.
    assert (txnId r' ∈ txnId <$> (win ++ [r])) as Hin'.
    { unfold window in Hin. apply list_elem_of_fmap in Hin as (x & -> & Hx).
      apply list_elem_of_fmap. exists x. split; [done|].
      by apply (subseteq_drop (length (win ++ [r]) - n) (win ++ [r])). }
    rewrite fmap_app in Hin'. apply elem_of_app in Hin' as [Hin'|Hin'].
    + eapply Hnew; [right; exact Hr'|done].
    + simpl in Hin'. apply list_elem_of_singleton in Hin'.
      apply Hr. rewrite <-Hin'. apply list_elem_of_fmap. by exists r'.
Qed.

(** After an insertion the [Map] answers the inserted record. *)
Lemma record_inserted b txn :
  ProcessedTxnBuffer.lookup b !! txnId txn = None →
  (ProcessedTxnBuffer.record b txn).1 = (true, txn)
  ∧ ProcessedTxnBuffer.lookup (ProcessedTxnBuffer.record b txn).2 !! txnId txn
    = Some txn.
Proof.
  intros H. unfold ProcessedTxnBuffer.record. rewrite H. simpl.
  split; [done|]. by rewrite lookup_insert_eq.
Qed.
End RingFacts.

(** * Properties of the applier *)

Section ApplierFacts.
Implicit Types (b : Ring) (win : list ProcessedTransactionRecord).
Implicit Types (p : TxnParams) (cmds : list (Z * TxnParams)).

Lemma apply_known now bal p b e :
  ProcessedTxnBuffer.lookup b !! p_txnId p = Some e →
  applyIdempotentTransaction now bal p b
  = ({| balance := bal; processed := false; record := e |}, b).
Proof.
  intros H. unfold applyIdempotentTransaction.
  by rewrite (record_known b (candidate now bal p) e H).
Qed.

Lemma apply_new now bal p b :
  ProcessedTxnBuffer.lookup b !! p_txnId p = None →
  applyIdempotentTransaction now bal p b
  = ({| balance := (bal + p_delta p)%Z; processed := true;
        record := candidate now bal p |},
     (ProcessedTxnBuffer.record b (candidate now bal p)).2).
Proof.
  intros H. unfold applyIdempotentTransaction.
  destruct (record_inserted b (candidate now bal p) H) as [Hfst _].
  destruct (ProcessedTxnBuffer.record b (candidate now bal p)) as [[ins per] b'].
  simpl in *. by inversion Hfst.
Qed.

Lemma apply_fresh n now bal p b win :
  ring_inv n b win →
  ProcessedTxnBuffer.lookup b !! p_txnId p = None →
  ∃ b', applyIdempotentTransaction now bal p b
        = ({| balance := (bal + p_delta p)%Z; processed := true;
              record := candidate now bal p |}, b')
        ∧ ring_inv n b' (window n (win ++ [candidate now bal p])).
Proof.
  intros Hinv H. rewrite (apply_new now bal p b H).
  destruct (record_fresh n b win (candidate now bal p) Hinv H) as (b' & -> & ?).
  by exists b'.
Qed.

Lemma applyAll_cons bal b now p cmds :
  applyAll bal b ((now, p) :: cmds)
  = let r := applyIdempotentTransaction now bal p b in
    let rest := applyAll (balance r.1) r.2 cmds in
    (r.1 :: rest.1.1, rest.1.2, rest.2).
Proof.
  simpl. destruct (applyIdempotentTransaction now bal p b) as [r b1]. simpl.
  by destruct (applyAll (balance r) b1 cmds) as [[rs bal'] b2].
Qed.


(** Commands with pairwise distinct, new identifiers are all applied. *)
Lemma applyAll_distinct n cmds bal b win :
  ring_inv n b win →
  NoDup (cmd_ids cmds) →
  (∀ id, id ∈ cmd_ids cmds → id ∉ txnId <$> win) →
  ∃ recs,
    txnId <$> recs = cmd_ids cmds
    ∧ (applyAll bal b cmds).1.2 = (bal + sum_delta cmds)%Z
    ∧ ring_inv n (applyAll bal b cmds).2 (window n (win ++ recs))
    ∧ Forall (λ r, processed r = true) (applyAll bal b cmds).1.1.
Proof.
  revert bal b win. induction cmds as [|[now p] cmds IH]; intros bal b win Hinv Hnd Hnew.
  - exists []. simpl. rewrite (right_id_L [] (++)).
    rewrite window_short by apply (inv_bound _ _ _ Hinv).
    split_and!; [done|lia|done|constructor].
  - unfold cmd_ids in Hnd, Hnew. simpl in Hnd, Hnew. fold (cmd_ids cmds) in Hnd, Hnew.
    apply NoDup_cons in Hnd as [Hp Hnd].
    assert (ProcessedTxnBuffer.lookup b !! p_txnId p = None) as Hlk.
    { rewrite (inv_lookup _ _ _ Hinv). apply index_of_None, Hnew. left. }
    destruct (apply_fresh n now bal p b win Hinv Hlk) as (b1 & Happ & Hinv1).
    rewrite applyAll_cons, Happ. simpl.
    destruct (IH (bal + p_delta p)%Z b1 _ Hinv1 Hnd) as (recs & Hids & Hbal & Hinv2 & Hall).
    { intros id Hid Hin.
      assert (id ∈ txnId <$> (win ++ [candidate now bal p])) as Hin'.
      { unfold window in Hin. apply list_elem_of_fmap in Hin as (x & -> & Hx).
        apply list_elem_of_fmap. exists x. split; [done|].
        by apply (subseteq_drop _ _ x) in Hx. }
      rewrite fmap_app in Hin'. apply elem_of_app in Hin' as [Hin'|Hin'].
      - eapply Hnew; [right; exact Hid|done].
      - simpl in Hin'. apply list_elem_of_singleton in Hin'. by subst id. }
    exists (candidate now bal p :: recs). split_and!.
    + simpl. unfold cmd_ids. simpl. by f_equal.
    + rewrite Hbal. simpl. lia.
    + rewrite window_window_app, <-(assoc_L (++)) in Hinv2. done.
    + by constructor.
Qed.


(** The applier sees a ring only through the window it stores: two rings
    storing the same window answer alike, and store the same window
    afterwards. *)
Lemma apply_by_window n now bal p b1 b2 win :
  ring_inv n b1 win → ring_inv n b2 win →
  (applyIdempotentTransaction now bal p b1).1
  = (applyIdempotentTransaction now bal p b2).1
  ∧ ∃ win', ring_inv n (applyIdempotentTransaction now bal p b1).2 win'
            ∧ ring_inv n (applyIdempotentTransaction now bal p b2).2 win'
            ∧ (processed (applyIdempotentTransaction now bal p b1).1 = false
               → win' = win).
Proof.
  intros H1 H2.
  destruct (ProcessedTxnBuffer.lookup b1 !! p_txnId p) as [e|] eqn:Hlk.
  - assert (ProcessedTxnBuffer.lookup b2 !! p_txnId p = Some e) as Hlk2
      by (by rewrite (inv_lookup _ _ _ H2), <-(inv_lookup _ _ _ H1)).
    rewrite (apply_known now bal p b1 e Hlk), (apply_known now bal p b2 e Hlk2).
    split; [done|]. by exists win.
  - assert (ProcessedTxnBuffer.lookup b2 !! p_txnId p = None) as Hlk2
      by (by rewrite (inv_lookup _ _ _ H2), <-(inv_lookup _ _ _ H1)).
    destruct (apply_fresh n now bal p b1 win H1 Hlk) as (b1' & -> & H1').
    destruct (apply_fresh n now bal p b2 win H2 Hlk2) as (b2' & -> & H2').
    split; [done|]. eexists. split_and!; [done|done|]. done.
Qed.

(** The ring rebuilt from a persisted window stores that window. *)
Lemma rebuilt_ring n b win :
  0 < n → ring_inv n b win →
  ring_inv n (record_all (ProcessedTxnBuffer.fresh n) win) win.
Proof.
  intros Hn Hinv.
  pose proof (record_all_distinct n _ [] win (ring_inv_fresh n Hn)
                (inv_nodup _ _ _ Hinv)) as H.
  simpl in H. rewrite window_short in H by apply (inv_bound _ _ _ Hinv).
  apply H. intros r _. apply not_elem_of_nil.
Qed.

End ApplierFacts.

(** * The ledger claims *)

(** C1 (idempotence).  For every balance, every buffer state and every
    pair of commands carrying the same [txnId], applying the second after
    the first gives the balance and the ring of the first apply alone, the
    second apply reports [processed = false], and it returns the record of
    the first. *)
Theorem apply_twice_idempotent
    (now1 now2 bal : Z) (p1 p2 : TxnParams) (buf : Ring) :
  p_txnId p2 = p_txnId p1 →
  let once := applyIdempotentTransaction now1 bal p1 buf in
  let twice := applyIdempotentTransaction now2 (balance once.1) p2 once.2 in
  balance twice.1 = balance once.1
  ∧ twice.2 = once.2
  ∧ processed twice.1 = false
  ∧ record twice.1 = record once.1.
Proof.
  intros Hid. simpl.
  destruct (ProcessedTxnBuffer.lookup buf !! p_txnId p1) as [e|] eqn:Hlk.
  - rewrite (apply_known now1 bal p1 buf e Hlk). simpl.
    rewrite (apply_known now2 bal p2 buf e) by (by rewrite Hid). done.
  - rewrite (apply_new now1 bal p1 buf Hlk). simpl.
    destruct (record_inserted buf (candidate now1 bal p1) Hlk) as [_ Hstored].
    simpl in Hstored. rewrite <-Hid in Hstored.
    rewrite (apply_known now2 _ p2 _ _ Hstored). done.
Qed.

Lemma apply_twice_idempotent_witness :
  let buf := ProcessedTxnBuffer.fresh 64 in
  let once := applyIdempotentTransaction 1000 0 (credit_one "A") buf in
  let twice :=
    applyIdempotentTransaction 2000 (balance once.1) (credit_one "A") once.2 in
  balance twice.1 = balance once.1
  ∧ twice.2 = once.2
  ∧ processed twice.1 = false
  ∧ record twice.1 = record once.1.
Proof.
  exact (apply_twice_idempotent 1000 2000 0 (credit_one "A") (credit_one "A")
           (ProcessedTxnBuffer.fresh 64) eq_refl).
Defined.

(** C2 (the applier's algorithm, first writer wins).  The candidate has
    [balanceAfter = currentBalance + delta]; when [ring.record(candidate)]
    reports [inserted = false] the result is [{currentBalance, false,
    existing}] and the ring is the one passed in; when it reports [true]
    the result is [{candidate.balanceAfter, true, candidate}].  A later
    command with the same [txnId], whatever its delta, actor or balance,
    gets back the record of the first apply. *)
Theorem apply_algorithm_first_writer_wins
    (now bal : Z) (p : TxnParams) (buf : Ring)
    (now' bal' : Z) (replay : TxnParams) :
  p_txnId replay = p_txnId p →
  let cand := candidate now bal p in
  let first := applyIdempotentTransaction now bal p buf in
  balanceAfter cand = (bal + p_delta p)%Z
  ∧ first =
      match ProcessedTxnBuffer.record buf cand with
      | ((false, existing), _) =>
          ({| balance := bal; processed := false; record := existing |}, buf)
      | ((true, _), buf') =>
          ({| balance := balanceAfter cand; processed := true;
              record := cand |}, buf')
      end
  ∧ (ProcessedTxnBuffer.get buf (p_txnId p) = None →
       processed first.1 = true ∧ record first.1 = cand)
  ∧ applyIdempotentTransaction now' bal' replay first.2
    = ({| balance := bal'; processed := false; record := record first.1 |},
       first.2).
Proof.
  intros Hid cand first. subst cand first. unfold ProcessedTxnBuffer.get.
  split; [done|].
  destruct (ProcessedTxnBuffer.lookup buf !! p_txnId p) as [e|] eqn:Hlk.
  - rewrite (apply_known now bal p buf e Hlk).
    rewrite (record_known buf (candidate now bal p) e Hlk). simpl.
    split_and!; [done|done|]. apply apply_known. by rewrite Hid.
  - rewrite (apply_new now bal p buf Hlk).
    destruct (record_inserted buf (candidate now bal p) Hlk) as [Hfst Hstored].
    destruct (ProcessedTxnBuffer.record buf (candidate now bal p))
      as [[ins per] b'] eqn:Hrec.
    simpl in *. inversion Hfst; subst ins per.
    split_and!; [done|done|]. apply apply_known. by rewrite Hid.
Qed.

Lemma apply_algorithm_first_writer_wins_witness :
  let p := credit_one "A" in
  let replay :=
    {| p_txnId := "A"; p_delta := -500; p_actor := "mallory";
       p_source := game; p_reason := Some "retry"; p_timestamp := Some 7%Z |} in
  let first := applyIdempotentTransaction 1000 0 p (ProcessedTxnBuffer.fresh 64) in
  applyIdempotentTransaction 2000 1 replay first.2
  = ({| balance := 1; processed := false;
        record := candidate 1000 0 p |}, first.2).
Proof.
  intros p replay first.
  exact (proj2 (proj2 (proj2
           (apply_algorithm_first_writer_wins 1000 0 p
              (ProcessedTxnBuffer.fresh 64) 2000 1 replay eq_refl)))).
Defined.

(** C3 (ring bound and FIFO eviction).  Whatever sequence of [record]
    calls a ring of capacity 64 receives, it never stores more than 64
    records (in its slots as in its index) and holds exactly the latest 64
    of the records it inserted, in insertion order.  When the recorded
    identifiers are pairwise distinct these are the latest 64 of them; in
    particular recording a 65th evicts the first. *)
Theorem ring_bound_and_fifo (l : list ProcessedTransactionRecord) :
  let b := record_all (ProcessedTxnBuffer.fresh ProcessedTxnBuffer.default_size) l in
  ProcessedTxnBuffer.new ProcessedTxnBuffer.default_size
  = Ok (ProcessedTxnBuffer.fresh ProcessedTxnBuffer.default_size)
  ∧ length (ProcessedTxnBuffer.listNewestFirst b) ≤ 64
  ∧ size (ProcessedTxnBuffer.lookup b) ≤ 64
  ∧ reverse (ProcessedTxnBuffer.listNewestFirst b)
    = window 64 (inserted_log (ProcessedTxnBuffer.fresh 64) l)
  ∧ (NoDup (txnId <$> l) →
       reverse (ProcessedTxnBuffer.listNewestFirst b) = window 64 l
       ∧ (∀ r, r ∈ window 64 l → ProcessedTxnBuffer.get b (txnId r) = Some r)
       ∧ (∀ r, r ∈ take (length l - 64) l →
               ProcessedTxnBuffer.get b (txnId r) = None)
       ∧ (∀ first rest, l = first :: rest → length l = 65 →
            reverse (ProcessedTxnBuffer.listNewestFirst b) = rest
            ∧ ProcessedTxnBuffer.get b (txnId first) = None)).
Proof.
  intros b. subst b. unfold ProcessedTxnBuffer.default_size.
  pose proof (ring_inv_fresh 64 ltac:(lia)) as H0.
  split; [done|].
  pose proof (record_all_inv 64 _ [] l H0) as Hwin. simpl in Hwin.
  split_and!.
  - rewrite (ring_inv_list _ _ _ Hwin), length_reverse.
    apply (inv_bound _ _ _ Hwin).
  - rewrite (ring_inv_map_size _ _ _ Hwin). apply (inv_bound _ _ _ Hwin).
  - by rewrite (ring_inv_list _ _ _ Hwin), reverse_involutive.
  - intros Hnd. clear Hwin.
    pose proof (record_all_distinct 64 _ [] l H0 Hnd) as Hinv.
    simpl in Hinv. specialize (Hinv ltac:(intros r _; apply not_elem_of_nil)).
    assert (reverse (ProcessedTxnBuffer.listNewestFirst
                       (record_all (ProcessedTxnBuffer.fresh 64) l))
            = window 64 l) as Hlist
      by (by rewrite (ring_inv_list _ _ _ Hinv), reverse_involutive).
    assert (∀ r, r ∈ take (length l - 64) l →
              ProcessedTxnBuffer.get
                (record_all (ProcessedTxnBuffer.fresh 64) l) (txnId r) = None)
      as Hevicted.
    { intros r Hr. apply (ring_inv_get_None _ _ _ _ Hinv).
      rewrite <-(take_drop (length l - 64) l), fmap_app in Hnd.
      apply NoDup_app in Hnd as (_ & Hdisj & _).
      apply (Hdisj (txnId r)). apply list_elem_of_fmap. by exists r. }
    split_and!; [done| |done|].
    + intros r Hr. by apply (ring_inv_get_Some _ _ _ _ _ Hinv).
    + intros first rest -> Hlen. split.
      * rewrite Hlist. unfold window. rewrite Hlen. done.
      * apply Hevicted. rewrite Hlen. simpl. left.
Qed.

Lemma scenario_records_distinct :
  NoDup (txnId <$> ((λ id, candidate 0 0 (credit_one id)) <$> scenario_ids)).
Proof.
  apply (bool_decide_unpack
           (NoDup (txnId <$> ((λ id, candidate 0 0 (credit_one id))
                              <$> scenario_ids)))).
  vm_compute. exact I.
Qed.

Lemma ring_bound_and_fifo_witness :
  let l := (λ id, candidate 0 0 (credit_one id)) <$> scenario_ids in
  let b := record_all (ProcessedTxnBuffer.fresh 64) l in
  reverse (ProcessedTxnBuffer.listNewestFirst b) = drop 1 l
  ∧ ProcessedTxnBuffer.get b "T1" = None.
Proof.
  intros l b.
  destruct (ring_bound_and_fifo l) as (_ & _ & _ & _ & H).
  destruct (H scenario_records_distinct) as (_ & _ & _ & H65).
  exact (H65 (candidate 0 0 (credit_one "T1")) (drop 1 l) eq_refl eq_refl).
Defined.

(** C4 (scenario S3, the eviction boundary).  From balance 0 and an empty
    ring, 65 commands with pairwise distinct identifiers and delta +1 give
    balance 65 and a ring holding the identifiers 2 .. 65 in order; the
    replay of the first identifier is then processed again: balance 66, the
    first identifier stored anew as the newest, the second one evicted. *)
Theorem ring_eviction_scenario
    (cmds : list (Z * TxnParams)) (now : Z) (replay : TxnParams) (t1 t2 : string) :
  length cmds = 65 →
  NoDup (cmd_ids cmds) →
  Forall (λ c, p_delta c.2 = 1%Z) cmds →
  cmd_ids cmds !! 0 = Some t1 →
  cmd_ids cmds !! 1 = Some t2 →
  p_txnId replay = t1 →
  p_delta replay = 1%Z →
  let run := applyAll 0 (ProcessedTxnBuffer.fresh 64) cmds in
  let again := applyIdempotentTransaction now run.1.2 replay run.2 in
  run.1.2 = 65%Z
  ∧ Forall (λ r, processed r = true) run.1.1
  ∧ ring_ids run.2 = drop 1 (cmd_ids cmds)
  ∧ processed again.1 = true
  ∧ balance again.1 = 66%Z
  ∧ ring_ids again.2 = drop 2 (cmd_ids cmds) ++ [t1]
  ∧ ProcessedTxnBuffer.get again.2 t1 = Some (record again.1)
  ∧ ProcessedTxnBuffer.get again.2 t2 = None.
Proof.
  intros Hlen Hnd Hdelta Ht1 Ht2 Hid Hd run again. subst run again.
  pose proof (ring_inv_fresh 64 ltac:(lia)) as H0.
  destruct (applyAll_distinct 64 cmds 0 _ [] H0 Hnd) as (recs & Hids & Hbal & Hinv & Hall).
  { intros id _. apply not_elem_of_nil. }
  simpl in Hinv.
  assert (sum_delta cmds = Z.of_nat (length cmds)) as Hsum.
  { clear -Hdelta. induction Hdelta as [|c cs Hc _ IH]; [done|].
    unfold sum_delta in *. simpl. rewrite IH, Hc. lia. }
  assert ((applyAll 0 (ProcessedTxnBuffer.fresh 64) cmds).1.2 = 65%Z) as ->
    by (by rewrite Hbal, Hsum, Hlen).
  assert (length recs = 65) as Hrl.
  { rewrite <-(length_fmap txnId recs), Hids. unfold cmd_ids.
    by rewrite length_fmap. }
  assert (txnId <$> window 64 recs = drop 1 (cmd_ids cmds)) as Hwin.
  { unfold window. by rewrite Hrl, fmap_drop, Hids. }
  destruct (cmd_ids cmds) as [|i1 [|i2 ids]] eqn:Eids; try done.
  simpl in Ht1, Ht2. injection Ht1 as ->. injection Ht2 as ->.
  apply NoDup_cons in Hnd as [Hn1 Hnd].
  apply NoDup_cons in Hnd as [Hn2 Hnd].
  apply not_elem_of_cons in Hn1 as [Hne Hn1].
  assert (ProcessedTxnBuffer.lookup
            (applyAll 0 (ProcessedTxnBuffer.fresh 64) cmds).2 !! p_txnId replay
          = None) as Hgone.
  { apply (ring_inv_get_None _ _ _ _ Hinv). rewrite Hwin, Hid. simpl.
    apply not_elem_of_cons. done. }
  destruct (apply_fresh 64 now 65 replay _ _ Hinv Hgone) as (b' & -> & Hinv').
  rewrite window_window_app in Hinv'.
  assert (txnId <$> window 64 (recs ++ [candidate now 65 replay])
          = ids ++ [t1]) as Hwin'.
  { unfold window. rewrite length_app, Hrl. simpl.
    rewrite fmap_drop, fmap_app, Hids. simpl. by rewrite Hid. }
  simpl. split_and!; try done.
  - by rewrite (ring_inv_ids _ _ _ Hinv).
  - lia.
  - by rewrite (ring_inv_ids _ _ _ Hinv').
  - apply (ring_inv_get_Some _ _ _ _ _ Hinv'). split; [|done].
    unfold window. rewrite length_app, Hrl. simpl.
    rewrite drop_app_le by lia. apply elem_of_app. right. left.
  - apply (ring_inv_get_None _ _ _ _ Hinv'). rewrite Hwin'.
    intros [Hin|Hin%list_elem_of_singleton]%elem_of_app; [done|].
    by subst t2.
Qed.

Lemma scenario_ids_distinct : NoDup (cmd_ids scenario_cmds).
Proof.
  apply (bool_decide_unpack (NoDup (cmd_ids scenario_cmds))).
  vm_compute. exact I.
Qed.

Lemma ring_eviction_scenario_witness :
  let run := applyAll 0 (ProcessedTxnBuffer.fresh 64) scenario_cmds in
  let again := applyIdempotentTransaction 1 run.1.2 (credit_one "T1") run.2 in
  run.1.2 = 65%Z
  ∧ Forall (λ r, processed r = true) run.1.1
  ∧ ring_ids run.2 = drop 1 (cmd_ids scenario_cmds)
  ∧ processed again.1 = true
  ∧ balance again.1 = 66%Z
  ∧ ring_ids again.2 = drop 2 (cmd_ids scenario_cmds) ++ ["T1"]
  ∧ ProcessedTxnBuffer.get again.2 "T1" = Some (record again.1)
  ∧ ProcessedTxnBuffer.get again.2 "T2" = None.
Proof.
  apply (ring_eviction_scenario scenario_cmds 1 (credit_one "T1") "T1" "T2").
  - reflexivity.
  - exact scenario_ids_distinct.
  - apply Forall_fmap, Forall_forall. intros id _. reflexivity.
  - reflexivity.
  - reflexivity.
  - reflexivity.
  - reflexivity.
Defined.




(* ================================================================== *)
(** * Properties of the audit sink *)

Section HexFacts.
Implicit Types (c : ascii) (s : string) (bs : Buffer).

(** Induction over a string two characters at a time, the way
    [hex_decode] reads it. *)
Lemma string_pair_ind (P : string → Prop) :
  P EmptyString →
  (∀ a, P (String a EmptyString)) →
  (∀ a b s, P s → P (String a (String b s))) →
  ∀ s, P s.
Proof.
  intros H0 H1 H2 s.
  assert (P s ∧ ∀ a, P (String a s)) as [? _]; [|done].
  induction s as [|b s [IH1 IH2]]; split; auto.
Qed.

Lemma length_toLowerCase s : String.length (toLowerCase s) = String.length s.
Proof. induction s; simpl; by f_equal. Qed.

Lemma toLowerCase_char_idemp c :
  toLowerCase_char (toLowerCase_char c) = toLowerCase_char c.
Proof. destruct c as [[] [] [] [] [] [] [] []]; reflexivity. Qed.

Lemma toLowerCase_idemp s : toLowerCase (toLowerCase s) = toLowerCase s.
Proof.
  induction s; simpl; [done|]. by rewrite toLowerCase_char_idemp, IHs.
Qed.

Lemma length_hex_encode bs : String.length (hex_encode bs) = 2 * length bs.
Proof. induction bs; simpl; [done|]. rewrite IHbs. lia. Qed.

(** Decoding undoes encoding, byte by byte. *)
Lemma hex_decode_encode_byte (b : ascii) :
  unhex (hex_char (N_of_ascii b / 16)) = Some (N_of_ascii b / 16)%N
  ∧ unhex (hex_char (N_of_ascii b `mod` 16)) = Some (N_of_ascii b `mod` 16)%N
  ∧ ascii_of_N (16 * (N_of_ascii b / 16) + N_of_ascii b `mod` 16) = b.
Proof. destruct b as [[] [] [] [] [] [] [] []]; repeat split; reflexivity. Qed.

Lemma hex_decode_encode bs : hex_decode (hex_encode bs) = bs.
Proof.
  induction bs as [|b bs IH]; simpl; [done|].
  destruct (hex_decode_encode_byte b) as (-> & -> & ->). by rewrite IH.
Qed.

(** The digests are written in lowercase. *)
Lemma hex_char_case (b : ascii) :
  toLowerCase_char (toUpperCase_char (hex_char (N_of_ascii b / 16)))
  = hex_char (N_of_ascii b / 16)
  ∧ toLowerCase_char (toUpperCase_char (hex_char (N_of_ascii b `mod` 16)))
    = hex_char (N_of_ascii b `mod` 16).
Proof. destruct b as [[] [] [] [] [] [] [] []]; split; reflexivity. Qed.

Lemma toLowerCase_toUpperCase_hex bs :
  toLowerCase (toUpperCase (hex_encode bs)) = hex_encode bs.
Proof.
  induction bs as [|b bs IH]; simpl; [done|].
  destruct (hex_char_case b) as [-> ->]. by rewrite IH.
Qed.

(** A lowercase character that is a digit is the digit [hex_char] writes. *)
Lemma hex_char_unhex c (h : N) :
  unhex c = Some h → toLowerCase_char c = c →
  hex_char h = c ∧ (h < 16)%N.
Proof.
  destruct c as [[] [] [] [] [] [] [] []]; vm_compute;
    intros H1 H2; try discriminate H1; try discriminate H2;
    injection H1 as <-; split; reflexivity.
Qed.

Lemma nibbles_of_byte (h l : N) :
  (h < 16)%N → (l < 16)%N →
  (N_of_ascii (ascii_of_N (16 * h + l)) / 16 = h
   ∧ N_of_ascii (ascii_of_N (16 * h + l)) `mod` 16 = l)%N.
Proof.
  intros Hh Hl. rewrite N_ascii_embedding by lia. split.
  - symmetry. apply (N.div_unique _ 16 h l); lia.
  - symmetry. apply (N.mod_unique _ 16 h l); lia.
Qed.

(** A lowercase string that decodes to half as many bytes as it has
    characters is the encoding of what it decodes to. *)
Lemma hex_encode_decode s :
  toLowerCase s = s →
  2 * length (hex_decode s) = String.length s →
  hex_encode (hex_decode s) = s.
Proof.
  induction s as [|a|a b s IH] using string_pair_ind; simpl.
  - done.
  - intros _ ?. lia.
  - intros [= Ha Hb Hs] Hlen.
    destruct (unhex a) as [h|] eqn:Eh; [|simpl in Hlen; lia].
    destruct (unhex b) as [l|] eqn:El; [|simpl in Hlen; lia].
    simpl in *.
    destruct (hex_char_unhex a h Eh Ha) as [Ha' Hh].
    destruct (hex_char_unhex b l El Hb) as [Hb' Hl].
    destruct (nibbles_of_byte h l Hh Hl) as [-> ->].
    rewrite Ha', Hb', IH; [done|done|lia].
Qed.
End HexFacts.

Section SinkFacts.
Context (rt : Runtime).
Implicit Types (payload : Payload) (db : Db) (req : Request).

Lemma length_expected_signature payload :
  hmac_digest_32 rt →
  String.length (expected_signature rt payload) = 64.
Proof.
  intros H. unfold expected_signature. by rewrite length_hex_encode, H.
Qed.

(** Once the lengths agree, comparing the decoded buffers is comparing
    the lowercase strings. *)
Lemma decoded_compare (normalized : string) (digest : Buffer) :
  toLowerCase normalized = normalized →
  String.length (hex_encode digest) = String.length normalized →
  match timingSafeEqual (hex_decode normalized)
                        (hex_decode (hex_encode digest)) with
  | Ok r => r
  | Err _ => false
  end = bool_decide (normalized = hex_encode digest).
Proof.
  intros Hlow Hlen. rewrite hex_decode_encode. unfold timingSafeEqual.
  rewrite length_hex_encode in Hlen.
  destruct (decide (length (hex_decode normalized) = length digest)) as [Hl|Hl].
  - destruct (decide (hex_decode normalized = digest)) as [Heq|Hne].
    + rewrite bool_decide_eq_true_2 by done. symmetry.
      apply bool_decide_eq_true_2. rewrite <-Heq. symmetry.
      apply hex_encode_decode; [done|lia].
    + rewrite bool_decide_eq_false_2 by done. symmetry.
      apply bool_decide_eq_false_2. intros ->.
      by rewrite hex_decode_encode in Hne.
  - symmetry. apply bool_decide_eq_false_2. intros ->.
    by rewrite hex_decode_encode in Hl.
Qed.

(** [verifySignature] never lets an exception out, and decides whether
    the lowercased signature is the expected one. *)
Lemma verifySignature_decides payload (signature : string) :
  hmac_digest_32 rt →
  verifySignature rt payload (Some signature)
  = Ok (bool_decide (toLowerCase signature = expected_signature rt payload)).
Proof.
  intros H32. pose proof (length_expected_signature payload H32) as Hlen.
  destruct signature as [|c s].
  { simpl. f_equal. symmetry. apply bool_decide_eq_false_2.
    intros Heq. rewrite <-Heq in Hlen. done. }
  unfold verifySignature.
  set (normalized := toLowerCase (String c s)).
  destruct (String.length (expected_signature rt payload)
            =? String.length normalized) eqn:E; simpl.
  - apply Nat.eqb_eq in E.
    pose proof (decoded_compare normalized
                  (hmac_sha256 rt (HMAC_SECRET rt) (JSON_stringify rt payload))
                  (toLowerCase_idemp _) E) as Hcmp.
    fold (expected_signature rt payload) in Hcmp.
    destruct (timingSafeEqual _ _); by rewrite <-Hcmp.
  - apply Nat.eqb_neq in E. f_equal. symmetry.
    apply bool_decide_eq_false_2. intros Heq. by rewrite Heq in E.
Qed.

End SinkFacts.

(** * The audit-sink claims *)

Lemma demo_digest_32 : hmac_digest_32 demo_runtime.
Proof.
  intros key msg. simpl. unfold demo_digest.
  rewrite length_take, length_app, length_replicate. lia.
Qed.






(** C6, as stated, fails: the second of two signed POSTs with the same
    key and payloads of different hashes is answered 500
    [{error: "internal_error"}], not 409. *)
Lemma idempotency_conflict_not_409 :
  let first := serve demo_runtime empty_db
                 (demo_request (Some "k1") (demo_payload "A" 10)) in
  let second := serve demo_runtime first.2
                  (demo_request (Some "k1") (demo_payload "B" 10)) in
  hashPayload demo_runtime (demo_payload "A" 10)
    ≠ hashPayload demo_runtime (demo_payload "B" 10)
  ∧ first.1 = {| status := 200; body := LogResponse true false |}
  ∧ second.1 = {| status := 500; body := ErrorBody "internal_error" |}
  ∧ status second.1 ≠ 409.
Proof.
  split_and!.
  - vm_compute. discriminate.
  - vm_compute. reflexivity.
  - vm_compute. reflexivity.
  - vm_compute. lia.
Qed.

(** A request that was answered 200 leaves its key stored with the hash of
    its payload. *)
Lemma accepted_key_recorded
    (rt : Runtime) (db : Db) (req : Request) (key : string) (payload : Payload) :
  nullish (header_Idempotency_Key req) (body_idempotencyKey req) = Some key →
  body_payload req = Some payload →
  status (serve rt db req).1 = 200 →
  webhookDelivery (serve rt db req).2 !! key = Some (hashPayload rt payload).
Proof.
  intros Hkey Hp. unfold serve, postLogTransactions. rewrite Hkey, Hp.
  destruct (verifySignature rt payload _) as [[|]|]; simpl; try done.
  destruct key as [|c k]; [done|].
  unfold log_transaction, webhookDelivery_create.
  destruct (webhookDelivery db !! String c k) as [existing|] eqn:Hex; simpl.
  - destruct (String.eqb existing (hashPayload rt payload)) eqn:E; simpl; [|done].
    intros _. apply String.eqb_eq in E. by rewrite Hex, E.
  - intros _. unfold auditLog_upsert. simpl.
    destruct (auditLog db !! pl_txnId payload); simpl; by rewrite lookup_insert_eq.
Qed.

(** C6, amended.  When a POST with some idempotency key has been accepted
    (200), a later signed POST with the same key and a payload of a
    different hash is answered 500 [{error: "internal_error"}] (the
    conflict is thrown and reaches the error middleware), and the store is
    left as it was: no audit row and no delivery record is written. *)
Theorem idempotency_conflict_is_500
    (rt : Runtime) (db : Db) (req1 req2 : Request) (key : string)
    (p1 p2 : Payload) :
  nullish (header_Idempotency_Key req1) (body_idempotencyKey req1) = Some key →
  nullish (header_Idempotency_Key req2) (body_idempotencyKey req2) = Some key →
  body_payload req1 = Some p1 →
  body_payload req2 = Some p2 →
  hashPayload rt p1 ≠ hashPayload rt p2 →
  status (serve rt db req1).1 = 200 →
  verifySignature rt p2
    (nullish (header_X_Signature req2) (body_signature req2)) = Ok true →
  let db1 := (serve rt db req1).2 in
  serve rt db1 req2
  = ({| status := 500; body := ErrorBody "internal_error" |}, db1).
Proof.
  intros Hk1 Hk2 Hp1 Hp2 Hne H200 Hsig db1.
  pose proof (accepted_key_recorded rt db req1 key p1 Hk1 Hp1 H200) as Hrec.
  fold db1 in Hrec.
  assert (key ≠ EmptyString) as Hkey.
  { intros ->. revert H200. unfold serve, postLogTransactions.
    rewrite Hk1, Hp1. by destruct (verifySignature rt p1 _) as [[|]|]. }
  unfold serve, postLogTransactions. rewrite Hk2, Hp2, Hsig.
  destruct key as [|c k]; [done|].
  unfold log_transaction, webhookDelivery_create. rewrite Hrec.
  destruct (String.eqb (hashPayload rt p1) (hashPayload rt p2)) eqn:E; [|done].
  by apply String.eqb_eq in E.
Qed.

Lemma idempotency_conflict_is_500_witness :
  let first := serve demo_runtime empty_db
                 (demo_request (Some "k1") (demo_payload "A" 10)) in
  serve demo_runtime first.2 (demo_request (Some "k1") (demo_payload "B" 10))
  = ({| status := 500; body := ErrorBody "internal_error" |}, first.2).
Proof.
  apply (idempotency_conflict_is_500 demo_runtime empty_db
           (demo_request (Some "k1") (demo_payload "A" 10))
           (demo_request (Some "k1") (demo_payload "B" 10))
           "k1" (demo_payload "A" 10) (demo_payload "B" 10)).
  - reflexivity.
  - reflexivity.
  - reflexivity.
  - reflexivity.
  - vm_compute. discriminate.
  - vm_compute. reflexivity.
  - vm_compute. reflexivity.
Defined.

(* ================================================================== *)
(** * Properties of the retry wrapper *)

Section BackoffFacts.
Context {T : Type}.
Implicit Types (fn : World → result RequestError T * World).
Implicit Types (w : World) (base : Q).

(** A failed attempt with attempts left: draw the jitter, wait, go on. *)
Lemma withBackoff_loop_retry fn base attempt left w e w1 :
  fn w = (Err e, w1) →
  withBackoff_loop fn base attempt (S left) w
  = withBackoff_loop fn base (S attempt) left
      (delay (backoff_wait base attempt (random w1).1) (random w1).2).
Proof. intros H. simpl. rewrite H. by destruct (random w1). Qed.

(** A failed attempt with none left: its error is the one thrown. *)
Lemma withBackoff_loop_last fn base attempt w e w1 :
  fn w = (Err e, w1) →
  withBackoff_loop fn base attempt 0 w = (Err e, w1).
Proof. intros H. simpl. by rewrite H. Qed.

Lemma withBackoff_loop_ok fn base attempt left w v w1 :
  fn w = (Ok v, w1) →
  withBackoff_loop fn base attempt left w = (Ok v, w1).
Proof. intros H. destruct left; simpl; by rewrite H. Qed.
End BackoffFacts.

Section RequestFacts.
Implicit Types (w : World) (base : Q).

Lemma fetches_app (t1 t2 : list Event) :
  fetches (t1 ++ t2) = fetches t1 + fetches t2.
Proof.
  induction t1 as [|[|ms] t1 IH]; simpl; [done| |done].
  unfold fetches in *. simpl. by rewrite IH.
Qed.

Lemma random_effect w :
  trace (random w).2 = trace w ∧ net (random w).2 = net w.
Proof. unfold random. by destruct (rng w). Qed.

(** One attempt is one fetch; it consumes one response of the server and
    may append the wait the response asks for. *)
Lemma request_attempt_effect w :
  ∃ waits,
    trace (request_attempt w).2 = trace w ++ EvFetch :: waits
    ∧ fetches waits = 0
    ∧ net (request_attempt w).2 = tail (net w).
Proof.
  unfold request_attempt, fetch.
  destruct (net w) as [|response rest]; simpl.
  { by exists []. }
  destruct (is_transient response); simpl.
  - destruct (retry_after_ms response) as [ms|]; simpl.
    + exists [EvDelay ms]. by rewrite <-(assoc_L (++)).
    + by exists [].
  - destruct (negb (response_ok response)); by exists [].
Qed.

Lemma request_attempt_transient w response rest :
  net w = response :: rest →
  is_transient response = true →
  request_attempt w
  = (Err (TransientFailure (http_status response)),
     let w1 := {| net := rest; rng := rng w; trace := trace w ++ [EvFetch] |} in
     match retry_after_ms response with
     | Some delayMs => delay delayMs w1
     | None => w1
     end).
Proof.
  intros Hnet Ht. unfold request_attempt, fetch. by rewrite Hnet, Ht.
Qed.


(** At most [left + 1] fetches. *)
Lemma request_loop_fetches_bound base left attempt w :
  fetches (trace (withBackoff_loop request_attempt base attempt left w).2)
  ≤ fetches (trace w) + (left + 1).
Proof.
  revert attempt w. induction left as [|left IH]; intros attempt w;
    destruct (request_attempt_effect w) as (waits & Htr & Hw & _);
    destruct (request_attempt w) as [[v|e] w1] eqn:Hatt; simpl in Htr.
  - rewrite (withBackoff_loop_ok _ _ _ _ _ _ _ Hatt). simpl.
    rewrite Htr, fetches_app. simpl. unfold fetches in *. simpl. lia.
  - rewrite (withBackoff_loop_last _ _ _ _ _ _ Hatt). simpl.
    rewrite Htr, fetches_app. simpl. unfold fetches in *. simpl. lia.
  - rewrite (withBackoff_loop_ok _ _ _ _ _ _ _ Hatt). simpl.
    rewrite Htr, fetches_app. simpl. unfold fetches in *. simpl. lia.
  - rewrite (withBackoff_loop_retry _ _ _ _ _ _ _ Hatt).
    etrans; [apply IH|]. simpl.
    destruct (random_effect w1) as [-> _].
    rewrite Htr, !fetches_app. unfold fetches in *. simpl. lia.
Qed.

(** When every answer is a 429 or a 5xx, all [left + 1] attempts are
    made and the error of the last one is thrown. *)
Lemma request_loop_exhausted base left attempt w :
  left < length (net w) →
  Forall (λ r, is_transient r = true) (take (S left) (net w)) →
  fetches (trace (withBackoff_loop request_attempt base attempt left w).2)
  = fetches (trace w) + (left + 1)
  ∧ ∃ last, net w !! left = Some last
      ∧ (withBackoff_loop request_attempt base attempt left w).1
        = Err (TransientFailure (http_status last)).
Proof.
  revert attempt w. induction left as [|left IH]; intros attempt w Hlen Hall;
    destruct (net w) as [|response rest] eqn:Hnet; simpl in Hlen; try lia;
    simpl in Hall; apply Forall_cons in Hall as [Ht Hall];
    pose proof (request_attempt_transient w response rest Hnet Ht) as Hatt;
    destruct (request_attempt_effect w) as (waits & Htr & Hw & Hnet').
  - rewrite (withBackoff_loop_last _ _ _ _ _ _ Hatt).
    rewrite Hatt in Htr. simpl in Htr |- *. split.
    + rewrite Htr, fetches_app. unfold fetches in *. simpl. lia.
    + by exists response.
  - rewrite (withBackoff_loop_retry _ _ _ _ _ _ _ Hatt).
    rewrite Hatt in Htr, Hnet'. simpl in Htr, Hnet'.
    set (w1 := match retry_after_ms response with
               | Some delayMs => _ | None => _ end) in *.
    destruct (random_effect w1) as [Hrt Hrn].
    destruct (IH (S attempt)
                (delay (backoff_wait base attempt (random w1).1) (random w1).2))
      as (Hf & last & Hlast & Hres).
    { simpl. rewrite Hrn, Hnet', Hnet. simpl. lia. }
    { simpl. rewrite Hrn, Hnet', Hnet. done. }
    split.
    + rewrite Hf. simpl. rewrite Hrt, Htr, !fetches_app.
      unfold fetches in *. simpl. lia.
    + exists last. split; [|done].
      simpl in Hlast. by rewrite Hrn, Hnet', Hnet in Hlast.
Qed.

(** The jitter keeps the wait within 100 ms of the doubling delay. *)
Lemma backoff_wait_bounds base attempt (r : Q) :
  (0 <= r)%Q → (r < 1)%Q →
  (base * inject_Z (2 ^ Z.of_nat attempt) <= backoff_wait base attempt r)%Q
  ∧ (backoff_wait base attempt r
     < base * inject_Z (2 ^ Z.of_nat attempt) + 100)%Q.
Proof.
  intros H0 H1. unfold backoff_wait.
  generalize (base * inject_Z (2 ^ Z.of_nat attempt))%Q. intros x.
  split; lra.
Qed.
End RequestFacts.

(** * The transport claims *)




(** C9, as stated, fails: with the default [maxRetries = 4] an operation
    that keeps failing is executed five times, not four. *)
Lemma backoff_runs_five_times :
  let w := {| net := replicate 9 (respond 503 None); rng := []; trace := [] |} in
  let run := request default_options None w in
  maxRetries_of default_options = 4
  ∧ fetches (trace run.2) = 5
  ∧ ¬ fetches (trace run.2) ≤ maxRetries_of default_options.
Proof.
  split_and!.
  - reflexivity.
  - vm_compute. reflexivity.
  - vm_compute. lia.
Qed.

(** C9, amended.  The retry wrapper waits [baseDelay * 2^attempt] plus a
    jitter in [0, 100) ms between attempts; it executes the operation at
    most [maxRetries + 1] times in all, one first attempt and up to
    [maxRetries] retries (4 by default, with a base delay of 250 ms); when
    every attempt fails, all [maxRetries + 1] are made and the error of
    the last one is surfaced. *)
Theorem backoff_attempt_budget (options : OpenCloudClientOptions) (w : World) :
  let retries := maxRetries_of options in
  let base := backoffMs_of options in
  let run := request options None w in
  maxRetries_of default_options = 4
  ∧ backoffMs_of default_options = 250%Q
  ∧ fetches (trace run.2) ≤ fetches (trace w) + (retries + 1)
  ∧ (retries < length (net w) →
     Forall (λ r, is_transient r = true) (take (S retries) (net w)) →
     fetches (trace run.2) = fetches (trace w) + (retries + 1)
     ∧ ∃ last, net w !! retries = Some last
         ∧ run.1 = Err (TransientFailure (http_status last)))
  ∧ (∀ (T : Type) (fn : World → result RequestError T * World)
       attempt left w0 e w1,
       fn w0 = (Err e, w1) →
       withBackoff_loop fn base attempt (S left) w0
       = withBackoff_loop fn base (S attempt) left
           (delay (backoff_wait base attempt (random w1).1) (random w1).2))
  ∧ (∀ attempt r, (0 <= r)%Q → (r < 1)%Q →
       (base * inject_Z (2 ^ Z.of_nat attempt) <= backoff_wait base attempt r)%Q
       ∧ (backoff_wait base attempt r
          < base * inject_Z (2 ^ Z.of_nat attempt) + 100)%Q).
Proof.
  intros retries base run. subst retries base run.
  unfold request, withBackoff. split_and!.
  - done.
  - done.
  - apply request_loop_fetches_bound.
  - apply request_loop_exhausted.
  - intros T fn attempt left w0 e w1 H. by apply (withBackoff_loop_retry _ _ _ _ _ e).
  - apply backoff_wait_bounds.
Qed.

Lemma backoff_attempt_budget_witness :
  let w := {| net := replicate 9 (respond 503 None); rng := []; trace := [] |} in
  let run := request default_options None w in
  fetches (trace run.2) = fetches (trace w) + (4 + 1)
  ∧ ∃ last, net w !! 4 = Some last
      ∧ run.1 = Err (TransientFailure (http_status last)).
Proof.
  intros w run.
  refine (proj1 (proj2 (proj2 (proj2
            (backoff_attempt_budget default_options w)))) _ _).
  - vm_compute. lia.
  - repeat constructor.
Defined.

(* ================================================================== *)
(** * Further properties of the ring *)

(** A ring built by the constructor and used through [record] stores the
    latest insertions. *)
Lemma reachable_inv (n : nat) (l : list ProcessedTransactionRecord) :
  0 < n →
  ring_inv n (record_all (ProcessedTxnBuffer.fresh n) l)
             (window n (inserted_log (ProcessedTxnBuffer.fresh n) l)).
Proof.
  intros Hn. exact (record_all_inv n _ [] l (ring_inv_fresh n Hn)).
Qed.

Lemma reverse_window_snoc {A} (n : nat) (win : list A) (x : A) :
  0 < n → length win ≤ n →
  reverse (window n (win ++ [x])) = x :: take (n - 1) (reverse win).
Proof.
  intros Hn Hlen. unfold window. rewrite reverse_drop, reverse_snoc.
  rewrite length_app. simpl.
  destruct (decide (length win < n)) as [Hlt|Hfull].
  - replace (length win + 1 - (length win + 1 - n)) with (S (length win)) by lia.
    simpl. by rewrite !take_ge by (rewrite length_reverse; lia).
  - replace (length win + 1 - (length win + 1 - n)) with (S (n - 1)) by lia.
    done.
Qed.

(** X1 (constructor).  A ring of size 0 cannot be built; a ring of any
    positive size starts with that many empty slots, lists nothing and
    knows no identifier. *)
Theorem constructor_rejects_zero_and_starts_empty (n : nat) (id : string) :
  ProcessedTxnBuffer.new 0 = Err "Ring buffer size must be positive"
  ∧ ∃ b, ProcessedTxnBuffer.new (S n) = Ok b
      ∧ length (ProcessedTxnBuffer.buffer b) = S n
      ∧ ProcessedTxnBuffer.listNewestFirst b = []
      ∧ ProcessedTxnBuffer.get b id = None.
Proof.
  split; [done|]. exists (ProcessedTxnBuffer.fresh (S n)). split_and!.
  - done.
  - simpl. by rewrite length_replicate.
  - by rewrite (ring_inv_list _ _ _ (ring_inv_fresh (S n) ltac:(lia))).
  - done.
Qed.

(** X2 (record, then get).  Whatever the state of the ring, after
    [record(txn)] the ring answers [get(txn.txnId)] with the record the
    call returned: the new record when it was inserted, the stored one
    when the identifier was known. *)
Theorem get_after_record (b : Ring) (txn : ProcessedTransactionRecord) :
  let out := ProcessedTxnBuffer.record b txn in
  ProcessedTxnBuffer.get out.2 (txnId txn) = Some out.1.2
  ∧ (out.1.1 = true → out.1.2 = txn ∧ ProcessedTxnBuffer.get b (txnId txn) = None)
  ∧ (out.1.1 = false →
     ProcessedTxnBuffer.get b (txnId txn) = Some out.1.2 ∧ out.2 = b).
Proof.
  unfold ProcessedTxnBuffer.get. simpl.
  destruct (ProcessedTxnBuffer.lookup b !! txnId txn) as [e|] eqn:Hlk.
  - rewrite (record_known b txn e Hlk). simpl. by split_and!.
  - destruct (record_inserted b txn Hlk) as [Hfst Hget].
    destruct (ProcessedTxnBuffer.record b txn) as [[ins per] b'].
    simpl in *. inversion Hfst; subst. by split_and!.
Qed.

Lemma get_after_record_witness :
  let txn := candidate 0 0 (credit_one "A") in
  let out := ProcessedTxnBuffer.record (ProcessedTxnBuffer.fresh 4) txn in
  out.1.2 = txn ∧ ProcessedTxnBuffer.get (ProcessedTxnBuffer.fresh 4) "A" = None.
Proof.
  intros txn out.
  exact (proj1 (proj2 (get_after_record (ProcessedTxnBuffer.fresh 4) txn)) eq_refl).
Defined.

(** X3 (slots and index agree).  In a ring of any positive capacity [n],
    after any sequence of [record] calls: the listed records have pairwise
    distinct identifiers, a record is listed exactly when [get] returns it
    under its identifier, an identifier is unknown exactly when no listed
    record carries it, and the ring lists as many records as its index
    holds, never more than [n]. *)
Theorem slots_and_index_agree (n : nat) (l : list ProcessedTransactionRecord)
    (r : ProcessedTransactionRecord) (id : string) :
  0 < n →
  let b := record_all (ProcessedTxnBuffer.fresh n) l in
  NoDup (txnId <$> ProcessedTxnBuffer.listNewestFirst b)
  ∧ (r ∈ ProcessedTxnBuffer.listNewestFirst b
     ↔ ProcessedTxnBuffer.get b (txnId r) = Some r)
  ∧ (ProcessedTxnBuffer.get b id = None
     ↔ id ∉ txnId <$> ProcessedTxnBuffer.listNewestFirst b)
  ∧ length (ProcessedTxnBuffer.listNewestFirst b)
    = size (ProcessedTxnBuffer.lookup b)
  ∧ length (ProcessedTxnBuffer.listNewestFirst b) ≤ n
  ∧ ProcessedTxnBuffer.cursor b < ProcessedTxnBuffer.size b.
Proof.
  intros Hn b. subst b. pose proof (reachable_inv n l Hn) as Hinv.
  set (win := window n (inserted_log (ProcessedTxnBuffer.fresh n) l)) in *.
  rewrite (ring_inv_list _ _ _ Hinv). split_and!.
  - rewrite fmap_reverse, reverse_Permutation. apply (inv_nodup _ _ _ Hinv).
  - rewrite elem_of_reverse, (ring_inv_get_Some _ _ _ _ _ Hinv). naive_solver.
  - rewrite (ring_inv_get_None _ _ _ _ Hinv), fmap_reverse, elem_of_reverse. done.
  - by rewrite length_reverse, (ring_inv_map_size _ _ _ Hinv).
  - rewrite length_reverse. apply (inv_bound _ _ _ Hinv).
  - rewrite (inv_size _ _ _ Hinv). apply (inv_cursor _ _ _ Hinv).
Qed.

Lemma slots_and_index_agree_witness :
  let a := candidate 0 0 (credit_one "A") in
  let b := record_all (ProcessedTxnBuffer.fresh 2)
             [a; candidate 0 1 (credit_one "B"); candidate 0 2 (credit_one "C")] in
  ProcessedTxnBuffer.get b "A" = None
  ↔ "A" ∉ txnId <$> ProcessedTxnBuffer.listNewestFirst b.
Proof.
  intros a b.
  exact (proj1 (proj2 (proj2
           (slots_and_index_agree 2
              [a; candidate 0 1 (credit_one "B"); candidate 0 2 (credit_one "C")]
              a "A" ltac:(lia))))).
Defined.

(** X4 (newest first).  In a ring of capacity [n] reached through
    [record], inserting a record with an unknown identifier puts it at the
    head of [listNewestFirst] and keeps the [n - 1] newest of the records
    listed before, in their order; a known identifier changes nothing. *)
Theorem insertion_lists_newest_first (n : nat)
    (l : list ProcessedTransactionRecord) (txn : ProcessedTransactionRecord) :
  0 < n →
  let b := record_all (ProcessedTxnBuffer.fresh n) l in
  let b' := (ProcessedTxnBuffer.record b txn).2 in
  ProcessedTxnBuffer.listNewestFirst b'
  = match ProcessedTxnBuffer.get b (txnId txn) with
    | None => txn :: take (n - 1) (ProcessedTxnBuffer.listNewestFirst b)
    | Some _ => ProcessedTxnBuffer.listNewestFirst b
    end.
Proof.
  intros Hn b b'. subst b b'. pose proof (reachable_inv n l Hn) as Hinv.
  unfold ProcessedTxnBuffer.get.
  destruct (ProcessedTxnBuffer.lookup _ !! txnId txn) as [e|] eqn:Hlk.
  - by rewrite (record_known _ txn e Hlk).
  - destruct (record_fresh n _ _ txn Hinv Hlk) as (b' & -> & Hinv'). simpl.
    rewrite (ring_inv_list _ _ _ Hinv'), (ring_inv_list _ _ _ Hinv).
    apply reverse_window_snoc; [done|]. apply (inv_bound _ _ _ Hinv).
Qed.

Lemma insertion_lists_newest_first_witness :
  let a := candidate 0 0 (credit_one "A") in
  let b := candidate 0 1 (credit_one "B") in
  let c := candidate 0 2 (credit_one "C") in
  ProcessedTxnBuffer.listNewestFirst
    (ProcessedTxnBuffer.record (record_all (ProcessedTxnBuffer.fresh 2) [a; b]) c).2
  = [c; b].
Proof.
  intros a b c.
  exact (insertion_lists_newest_first 2 [a; b] c ltac:(lia)).
Defined.

(** X5 (only the oldest is ever lost).  In a ring of capacity [n] reached
    through [record], inserting a new identifier leaves every other stored
    record as it is while the ring is not full; when the ring is full it
    forgets the oldest record, the last of [listNewestFirst], and nothing
    else. *)
Theorem insertion_evicts_only_the_oldest (n : nat)
    (l : list ProcessedTransactionRecord) (txn : ProcessedTransactionRecord)
    (id : string) :
  0 < n →
  let b := record_all (ProcessedTxnBuffer.fresh n) l in
  let b' := (ProcessedTxnBuffer.record b txn).2 in
  ProcessedTxnBuffer.get b (txnId txn) = None →
  id ≠ txnId txn →
  (length (ProcessedTxnBuffer.listNewestFirst b) < n →
   ProcessedTxnBuffer.get b' id = ProcessedTxnBuffer.get b id)
  ∧ (length (ProcessedTxnBuffer.listNewestFirst b) = n →
     ∃ oldest, last (ProcessedTxnBuffer.listNewestFirst b) = Some oldest
       ∧ ProcessedTxnBuffer.get b' (txnId oldest) = None
       ∧ (id ≠ txnId oldest →
          ProcessedTxnBuffer.get b' id = ProcessedTxnBuffer.get b id)).
Proof.
  intros Hn b b' Hnew Hid. subst b b'.
  pose proof (reachable_inv n l Hn) as Hinv.
  set (win := window n (inserted_log (ProcessedTxnBuffer.fresh n) l)) in *.
  destruct (record_fresh n _ _ txn Hinv Hnew) as (b' & -> & Hinv'). simpl.
  rewrite (ring_inv_list _ _ _ Hinv), length_reverse, last_reverse.
  pose proof (inv_nodup _ _ _ Hinv) as Hnd.
  unfold ProcessedTxnBuffer.get.
  rewrite (inv_lookup _ _ _ Hinv'), (inv_lookup _ _ _ Hinv). split.
  - intros Hlt. rewrite window_short by (rewrite length_app; simpl; lia).
    rewrite index_of_snoc by (by apply (ring_inv_get_None _ _ _ _ Hinv)).
    by rewrite lookup_insert_ne.
  - intros Hfull. destruct win as [|w rest] eqn:Ewin; [simpl in Hfull; lia|].
    exists w. rewrite window_full_snoc by done.
    apply NoDup_cons in Hnd as [Hw Hnd]. fold (fmap txnId rest) in Hw, Hnd.
    assert (txnId txn ≠ txnId w) as Hne.
    { intros Heq. apply (ring_inv_get_None _ _ _ _ Hinv) in Hnew.
      apply Hnew. rewrite Heq. left. }
    assert (txnId txn ∉ txnId <$> rest) as Hfresh.
    { apply (ring_inv_get_None _ _ _ _ Hinv) in Hnew.
      by apply not_elem_of_cons in Hnew as [_ ?]. }
    rewrite !index_of_snoc by done. split_and!.
    + done.
    + rewrite lookup_insert_ne by done. by apply index_of_None.
    + intros Hid'. rewrite lookup_insert_ne by done.
      rewrite index_of_cons. by rewrite lookup_insert_ne.
Qed.

Lemma insertion_evicts_only_the_oldest_witness :
  let a := candidate 0 0 (credit_one "A") in
  let b := candidate 0 1 (credit_one "B") in
  let c := candidate 0 2 (credit_one "C") in
  let full := record_all (ProcessedTxnBuffer.fresh 2) [a; b] in
  let after := (ProcessedTxnBuffer.record full c).2 in
  ∃ oldest, last (ProcessedTxnBuffer.listNewestFirst full) = Some oldest
    ∧ ProcessedTxnBuffer.get after (txnId oldest) = None
    ∧ ("B" ≠ txnId oldest →
       ProcessedTxnBuffer.get after "B" = ProcessedTxnBuffer.get full "B").
Proof.
  intros a b c full after.
  refine (proj2 (insertion_evicts_only_the_oldest 2 [a; b] c "B"
                   ltac:(lia) eq_refl _) eq_refl).
  discriminate.
Defined.

(** X6 (persisting a ring).  A ring of capacity [n] reached through
    [record] is rebuilt from [listNewestFirst().reverse()], the order in
    which [updateEconomyProfile] writes [processed], into a ring that
    lists the same records and has the same index. *)
Theorem ring_survives_persistence (n : nat) (l : list ProcessedTransactionRecord) :
  0 < n →
  let b := record_all (ProcessedTxnBuffer.fresh n) l in
  let stored := reverse (ProcessedTxnBuffer.listNewestFirst b) in
  let rebuilt := record_all (ProcessedTxnBuffer.fresh n) stored in
  ProcessedTxnBuffer.listNewestFirst rebuilt = ProcessedTxnBuffer.listNewestFirst b
  ∧ ProcessedTxnBuffer.lookup rebuilt = ProcessedTxnBuffer.lookup b
  ∧ length stored ≤ n.
Proof.
  intros Hn b stored rebuilt. subst b stored rebuilt.
  pose proof (reachable_inv n l Hn) as Hinv.
  rewrite (ring_inv_list _ _ _ Hinv), reverse_involutive.
  pose proof (rebuilt_ring n _ _ Hn Hinv) as Hre. split_and!.
  - by rewrite (ring_inv_list _ _ _ Hre).
  - by rewrite (inv_lookup _ _ _ Hre), (inv_lookup _ _ _ Hinv).
  - apply (inv_bound _ _ _ Hinv).
Qed.

Lemma ring_survives_persistence_witness :
  let l := (λ id, candidate 0 0 (credit_one id)) <$> scenario_ids in
  let b := record_all (ProcessedTxnBuffer.fresh 64) l in
  let rebuilt := record_all (ProcessedTxnBuffer.fresh 64)
                   (reverse (ProcessedTxnBuffer.listNewestFirst b)) in
  ProcessedTxnBuffer.lookup rebuilt = ProcessedTxnBuffer.lookup b.
Proof.
  intros l b rebuilt.
  exact (proj1 (proj2 (ring_survives_persistence 64 l ltac:(lia)))).
Defined.

(* ================================================================== *)
(** * Further properties of the applier *)

Lemma chained_snoc (l : list ProcessedTransactionRecord)
    (x : ProcessedTransactionRecord) :
  chained l →
  (∀ r, last l = Some r → balanceAfter x = (balanceAfter r + delta x)%Z) →
  chained (l ++ [x]).
Proof.
  induction l as [|r1 [|r2 l] IH]; simpl; intros Hc Hlast.
  - done.
  - split; [|done]. by apply Hlast.
  - destruct Hc as [H12 Hc]. split; [done|]. apply IH; [done|].
    intros r Hr. apply Hlast. exact Hr.
Qed.

Lemma chained_tail (r : ProcessedTransactionRecord)
    (l : list ProcessedTransactionRecord) :
  chained (r :: l) → chained l.
Proof. destruct l; simpl; [done|]. by intros [_ ?]. Qed.

Lemma chained_drop (k : nat) (l : list ProcessedTransactionRecord) :
  chained l → chained (drop k l).
Proof.
  revert l. induction k as [|k IH]; intros l Hc; [done|].
  destruct l as [|r l]; [done|]. simpl. apply IH. by eapply chained_tail.
Qed.

Lemma ledger_inv_insert (n : nat) (now bal : Z) (p : TxnParams)
    (win : list ProcessedTransactionRecord) :
  0 < n → ledger_inv bal win →
  ledger_inv (bal + p_delta p) (window n (win ++ [candidate now bal p])).
Proof.
  intros Hn [Hc Hlast]. split.
  - apply chained_drop, chained_snoc; [done|].
    intros r Hr. simpl. by rewrite (Hlast r Hr).
  - intros r. unfold window.
    rewrite last_lookup, length_drop, lookup_drop, length_app. simpl.
    match goal with
    | |- (_ ++ _) !! ?i = _ → _ => replace i with (length win) by lia
    end.
    rewrite lookup_app_r, Nat.sub_diag by lia. simpl. by intros [= <-].
Qed.

(** A run of the applier keeps ring and ledger consistent. *)
Lemma applyAll_ledger (n : nat) (cmds : list (Z * TxnParams)) (bal : Z)
    (b : Ring) (win : list ProcessedTransactionRecord) :
  0 < n → ring_inv n b win → ledger_inv bal win →
  ∃ win', ring_inv n (applyAll bal b cmds).2 win'
          ∧ ledger_inv (applyAll bal b cmds).1.2 win'.
Proof.
  intros Hn. revert bal b win.
  induction cmds as [|[now p] cmds IH]; intros bal b win Hinv Hled.
  { by exists win. }
  rewrite applyAll_cons. simpl.
  destruct (ProcessedTxnBuffer.lookup b !! p_txnId p) as [e|] eqn:Hlk.
  - rewrite (apply_known now bal p b e Hlk). simpl. by eapply IH.
  - destruct (apply_fresh n now bal p b win Hinv Hlk) as (b1 & -> & Hinv1).
    simpl. eapply IH; [done|]. by apply ledger_inv_insert.
Qed.

Lemma applyAll_app (cmds1 cmds2 : list (Z * TxnParams)) (bal : Z) (b : Ring) :
  applyAll bal b (cmds1 ++ cmds2)
  = let first := applyAll bal b cmds1 in
    let second := applyAll first.1.2 first.2 cmds2 in
    (first.1.1 ++ second.1.1, second.1.2, second.2).
Proof.
  revert bal b. induction cmds1 as [|[now p] cmds1 IH]; intros bal b.
  { simpl. by destruct (applyAll bal b cmds2) as [[? ?] ?]. }
  rewrite <-app_comm_cons, !applyAll_cons. simpl. by rewrite IH.
Qed.

(** Commands whose identifiers the ring knows are all replays. *)
Lemma applyAll_known (n : nat) (cmds : list (Z * TxnParams)) (bal : Z)
    (b : Ring) (win : list ProcessedTransactionRecord) :
  ring_inv n b win →
  Forall (λ c, p_txnId c.2 ∈ txnId <$> win) cmds →
  (applyAll bal b cmds).1.2 = bal
  ∧ (applyAll bal b cmds).2 = b
  ∧ Forall (λ r, processed r = false) (applyAll bal b cmds).1.1
  ∧ length (applyAll bal b cmds).1.1 = length cmds.
Proof.
  intros Hinv Hall. induction Hall as [|[now p] cmds Hin _ IH]; [by split_and!|].
  rewrite applyAll_cons. simpl in *.
  destruct (ProcessedTxnBuffer.lookup b !! p_txnId p) as [e|] eqn:Hlk.
  - rewrite (apply_known now bal p b e Hlk). simpl.
    destruct IH as (-> & -> & ? & ->). split_and!; [done|done| |done].
    by constructor.
  - rewrite (inv_lookup _ _ _ Hinv) in Hlk. by apply index_of_None in Hlk.
Qed.

(** Without eviction every identifier met stays known. *)
Lemma applyAll_capacity_inv (n : nat) (cmds : list (Z * TxnParams)) (bal : Z)
    (b : Ring) (win : list ProcessedTransactionRecord) :
  ring_inv n b win →
  length win + length (distinct_first (txnId <$> win) cmds) ≤ n →
  ∃ win', ring_inv n (applyAll bal b cmds).2 win'
          ∧ (∀ id, id ∈ txnId <$> win → id ∈ txnId <$> win')
          ∧ (∀ id, id ∈ cmd_ids cmds → id ∈ txnId <$> win').
Proof.
  revert bal b win. induction cmds as [|[now p] cmds IH]; intros bal b win Hinv Hcap.
  { exists win. split_and!; [done|done|]. intros id Hid. by apply elem_of_nil in Hid. }
  rewrite applyAll_cons. simpl in *.
  destruct (decide (p_txnId p ∈ txnId <$> win)) as [Hin|Hnew].
  - destruct (ProcessedTxnBuffer.lookup b !! p_txnId p) as [e|] eqn:Hlk.
    + rewrite (apply_known now bal p b e Hlk). simpl.
      destruct (IH bal b win Hinv Hcap) as (win' & Hinv' & Hold & Hnew).
      exists win'. split_and!; [done|done|].
      intros id [->|Hid]%elem_of_cons; [by apply Hold|by apply Hnew].
    + rewrite (inv_lookup _ _ _ Hinv) in Hlk. by apply index_of_None in Hlk.
  - assert (ProcessedTxnBuffer.lookup b !! p_txnId p = None) as Hlk.
    { rewrite (inv_lookup _ _ _ Hinv). by apply index_of_None. }
    destruct (apply_fresh n now bal p b win Hinv Hlk) as (b1 & -> & Hinv1).
    simpl in *.
    rewrite window_short in Hinv1 by (rewrite length_app; simpl; lia).
    destruct (IH (bal + p_delta p)%Z b1 _ Hinv1) as (win' & Hinv' & Hold & Hnew').
    { rewrite fmap_app, length_app. simpl. lia. }
    exists win'. split_and!; [done| |].
    + intros id Hid. apply Hold. rewrite fmap_app. apply elem_of_app. by left.
    + intros id [->|Hid]%elem_of_cons; [|by apply Hnew'].
      apply Hold. rewrite fmap_app. apply elem_of_app. right. simpl. left.
Qed.

(** X7 (the ring is a ledger).  After any sequence of commands applied
    from a balance [bal0] and an empty ring of positive capacity, every
    stored record continues the one before it
    ([balanceAfter = previous balanceAfter + delta]), and the newest
    stored record carries the current balance. *)
Theorem stored_records_chain_to_balance (n : nat) (bal0 : Z)
    (cmds : list (Z * TxnParams)) (newest : ProcessedTransactionRecord) :
  0 < n →
  let run := applyAll bal0 (ProcessedTxnBuffer.fresh n) cmds in
  chained (reverse (ProcessedTxnBuffer.listNewestFirst run.2))
  ∧ (head (ProcessedTxnBuffer.listNewestFirst run.2) = Some newest →
     balanceAfter newest = run.1.2).
Proof.
  intros Hn run. subst run.
  destruct (applyAll_ledger n cmds bal0 _ [] Hn (ring_inv_fresh n Hn))
    as (win & Hinv & Hc & Hlast).
  { split; [done|]. intros r Hr. done. }
  rewrite (ring_inv_list _ _ _ Hinv), reverse_involutive, head_reverse.
  split; [done|apply Hlast].
Qed.

Lemma stored_records_chain_to_balance_witness :
  let run := applyAll 0 (ProcessedTxnBuffer.fresh 64)
               (scenario_cmds ++ [(0%Z, credit_one "T1")]) in
  head (ProcessedTxnBuffer.listNewestFirst run.2)
  = Some (candidate 0 65 (credit_one "T1"))
  ∧ balanceAfter (candidate 0 65 (credit_one "T1")) = run.1.2.
Proof.
  intros run.
  assert (head (ProcessedTxnBuffer.listNewestFirst run.2)
          = Some (candidate 0 65 (credit_one "T1"))) as Hnewest
    by (vm_compute; reflexivity).
  split; [exact Hnewest|].
  exact (proj2 (stored_records_chain_to_balance 64 0
                  (scenario_cmds ++ [(0%Z, credit_one "T1")])
                  (candidate 0 65 (credit_one "T1")) ltac:(lia)) Hnewest).
Defined.

(** X8 (a replayed batch).  When a sequence of commands with at most 64
    distinct identifiers has been applied from an empty 64-slot ring,
    delivering any of its commands again, in any number and order and with
    any deltas, changes neither the balance nor the ring, and every such
    replay reports [processed = false]. *)
Theorem replayed_batch_changes_nothing
    (bal0 : Z) (cmds replays : list (Z * TxnParams)) :
  length (distinct_first [] cmds) ≤ 64 →
  Forall (λ c, p_txnId c.2 ∈ cmd_ids cmds) replays →
  let first := applyAll bal0 (ProcessedTxnBuffer.fresh 64) cmds in
  let both := applyAll bal0 (ProcessedTxnBuffer.fresh 64) (cmds ++ replays) in
  both.1.2 = first.1.2
  ∧ both.2 = first.2
  ∧ ∃ rs, both.1.1 = first.1.1 ++ rs
      ∧ length rs = length replays
      ∧ Forall (λ r, processed r = false) rs.
Proof.
  intros Hcap Hre first both. subst first both.
  rewrite applyAll_app. simpl.
  destruct (applyAll_capacity_inv 64 cmds bal0 _ []
              (ring_inv_fresh 64 ltac:(lia)) Hcap) as (win & Hinv & _ & Hids).
  destruct (applyAll_known 64 replays
              (applyAll bal0 (ProcessedTxnBuffer.fresh 64) cmds).1.2 _ win Hinv)
    as (Hbal & Hring & Hproc & Hlen).
  { eapply Forall_impl; [exact Hre|]. intros c Hc. by apply Hids. }
  split_and!; [done|done|]. eexists. split_and!; [done|done|done].
Qed.

Lemma replayed_batch_changes_nothing_witness :
  let cmds := [(1%Z, credit_one "A"); (2%Z, credit_one "B")] in
  let replays := [(3%Z, credit_one "B"); (4%Z, credit_one "A");
                  (5%Z, credit_one "B")] in
  (applyAll 0 (ProcessedTxnBuffer.fresh 64) (cmds ++ replays)).1.2
  = (applyAll 0 (ProcessedTxnBuffer.fresh 64) cmds).1.2.
Proof.
  intros cmds replays.
  refine (proj1 (replayed_batch_changes_nothing 0 cmds replays _ _)).
  - vm_compute. lia.
  - repeat constructor; set_solver.
Defined.

(* ================================================================== *)
(** * Further properties of the stored profile *)

(** One run of the closure, in terms of the applier on any ring that
    stores the profile's records. *)
Lemma update_attempt_spec (now bal : Z) (c : EconomyTransactionCommand)
    (b : Ring) (win : list ProcessedTransactionRecord) :
  ring_inv 64 b win →
  let out := applyIdempotentTransaction now bal (command_params c) b in
  updateEconomyProfile_attempt now
    {| profile_balance := bal; profile_processed := win |} c
  = (out.1,
     {| profile_balance := balance out.1;
        profile_processed :=
          reverse (ProcessedTxnBuffer.listNewestFirst out.2) |}).
Proof.
  intros Hinv out. subst out.
  unfold updateEconomyProfile_attempt, ProcessedTxnBuffer.default_size. simpl.
  pose proof (rebuilt_ring 64 b win ltac:(lia) Hinv) as Hre.
  destruct (ProcessedTxnBuffer.lookup b !! p_txnId (command_params c))
    as [e|] eqn:Hlk.
  - assert (ProcessedTxnBuffer.lookup
              (record_all (ProcessedTxnBuffer.fresh 64) win)
              !! p_txnId (command_params c) = Some e) as Hlk'
      by (by rewrite (inv_lookup _ _ _ Hre), <-(inv_lookup _ _ _ Hinv)).
    rewrite (apply_known now bal (command_params c) _ e Hlk'),
      (apply_known now bal (command_params c) b e Hlk).
    simpl. by rewrite (ring_inv_list _ _ _ Hinv), reverse_involutive.
  - assert (ProcessedTxnBuffer.lookup
              (record_all (ProcessedTxnBuffer.fresh 64) win)
              !! p_txnId (command_params c) = None) as Hlk'
      by (by rewrite (inv_lookup _ _ _ Hre), <-(inv_lookup _ _ _ Hinv)).
    destruct (apply_fresh 64 now bal (command_params c) _ win Hre Hlk')
      as (b1 & -> & H1).
    destruct (apply_fresh 64 now bal (command_params c) b win Hinv Hlk)
      as (b2 & -> & H2).
    simpl. by rewrite (ring_inv_list _ _ _ H1), (ring_inv_list _ _ _ H2).
Qed.

(** The profile the store holds after a sequence of commands is the
    balance and the ring contents of the applier run on one ring. *)
Lemma updateAll_profile (ucmds : list (Z * EconomyTransactionCommand))
    (bal : Z) (b : Ring) (win : list ProcessedTransactionRecord) :
  ring_inv 64 b win →
  (updateAll {| profile_balance := bal; profile_processed := win |} ucmds).2
  = {| profile_balance := (applyAll bal b (params_of ucmds)).1.2;
       profile_processed :=
         reverse (ProcessedTxnBuffer.listNewestFirst
                    (applyAll bal b (params_of ucmds)).2) |}.
Proof.
  revert bal b win. induction ucmds as [|[now c] ucmds IH]; intros bal b win Hinv.
  { simpl. by rewrite (ring_inv_list _ _ _ Hinv), reverse_involutive. }
  unfold params_of. simpl fmap. fold (params_of ucmds).
  rewrite applyAll_cons. simpl.
  rewrite (update_attempt_spec now bal c b win Hinv). simpl.
  destruct (apply_by_window 64 now bal (command_params c) b b win Hinv Hinv)
    as (_ & win' & Hinv' & _ & _).
  rewrite (ring_inv_list _ _ _ Hinv'), reverse_involutive.
  destruct (updateAll _ ucmds) as [rs p] eqn:Eu. simpl.
  specialize (IH (balance (applyIdempotentTransaction now bal (command_params c) b).1)
                 _ win' Hinv').
  by rewrite Eu in IH.
Qed.

(** X9 (the stored profile).  After any sequence of commands applied to a
    new wallet through [updateEconomyProfile], the stored profile holds
    the balance and, oldest first, the ring contents of the applier run on
    one long-lived ring; [processed] has at most 64 records with pairwise
    distinct identifiers, each continuing the balance of the one before,
    the last one carrying the stored balance. *)
Theorem stored_profile_invariants
    (ucmds : list (Z * EconomyTransactionCommand))
    (newest : ProcessedTransactionRecord) :
  let stored := (updateAll empty_profile ucmds).2 in
  let run := applyAll 0 (ProcessedTxnBuffer.fresh 64) (params_of ucmds) in
  profile_balance stored = run.1.2
  ∧ profile_processed stored
    = reverse (ProcessedTxnBuffer.listNewestFirst run.2)
  ∧ length (profile_processed stored) ≤ 64
  ∧ NoDup (txnId <$> profile_processed stored)
  ∧ chained (profile_processed stored)
  ∧ (last (profile_processed stored) = Some newest →
     balanceAfter newest = profile_balance stored).
Proof.
  intros stored run. subst stored run.
  pose proof (ring_inv_fresh 64 ltac:(lia)) as H0.
  unfold empty_profile. rewrite (updateAll_profile ucmds 0 _ [] H0). simpl.
  destruct (applyAll_ledger 64 (params_of ucmds) 0 _ [] ltac:(lia) H0)
    as (win & Hinv & Hc & Hlast).
  { split; [done|]. intros r Hr. done. }
  rewrite (ring_inv_list _ _ _ Hinv), reverse_involutive.
  split_and!; [done|done| | |done|apply Hlast].
  - apply (inv_bound _ _ _ Hinv).
  - apply (inv_nodup _ _ _ Hinv).
Qed.

Lemma stored_profile_invariants_witness :
  let stored := (updateAll empty_profile
                   (scenario_commands ++ [(0%Z, credit_one_command "T1")])).2 in
  last (profile_processed stored) = Some (candidate 0 65 (credit_one "T1"))
  ∧ balanceAfter (candidate 0 65 (credit_one "T1")) = profile_balance stored.
Proof.
  intros stored.
  assert (last (profile_processed stored)
          = Some (candidate 0 65 (credit_one "T1"))) as Hnewest
    by (vm_compute; reflexivity).
  split; [exact Hnewest|].
  exact (proj2 (proj2 (proj2 (proj2 (proj2
           (stored_profile_invariants
              (scenario_commands ++ [(0%Z, credit_one_command "T1")])
              (candidate 0 65 (credit_one "T1"))))))) Hnewest).
Defined.

(* ================================================================== *)
(** * The Lua ring and command handler against the TypeScript ones *)

Lemma lua_inv_unique (n : nat) (s1 s2 : RingBuffer.t)
    (win : list ProcessedTransactionRecord) :
  lua_inv n s1 win → lua_inv n s2 win → s1 = s2.
Proof.
  intros [H1 H2 H3 _ _] [H1' H2' H3' _ _]. destruct s1, s2; simpl in *.
  by subst.
Qed.

Lemma lua_inv_empty (n : nat) : lua_inv n (RingBuffer.new n None) [].
Proof. split; simpl; try done. - apply NoDup_nil_2. - lia. Qed.

Lemma lua_push_known (self : RingBuffer.t)
    (r e : ProcessedTransactionRecord) :
  RingBuffer.lookup self !! txnId r = Some e →
  RingBuffer.push self r = ((false, e), self).
Proof. intros H. unfold RingBuffer.push. by rewrite H. Qed.

Lemma lua_push_fresh (n : nat) (self : RingBuffer.t)
    (win : list ProcessedTransactionRecord) (r : ProcessedTransactionRecord) :
  0 < n → lua_inv n self win →
  RingBuffer.lookup self !! txnId r = None →
  ∃ self', RingBuffer.push self r = ((true, r), self')
           ∧ lua_inv n self' (window n (win ++ [r])).
Proof.
  intros Hn [Hsz Hit Hlk Hnd Hb] Hnone.
  assert (txnId r ∉ txnId <$> win) as Hfresh
    by (by rewrite <-index_of_None, <-Hlk).
  unfold RingBuffer.push. rewrite Hnone, Hit, Hsz, Hlk.
  rewrite length_app. simpl.
  destruct (decide (n < length win + 1)) as [Hfull|Hroom].
  - assert (length win = n) as Hlen by lia.
    destruct win as [|w rest]; [simpl in *; lia|].
    rewrite window_full_snoc by done. simpl.
    apply NoDup_cons in Hnd as [Hw Hnd]. fold (fmap txnId rest) in Hw, Hnd.
    apply not_elem_of_cons in Hfresh as [Hne Hfresh].
    eexists; split; [reflexivity|]. split; simpl.
    + done.
    + done.
    + rewrite index_of_cons, delete_insert_ne by done.
      rewrite delete_insert_id by (by apply index_of_None).
      by rewrite index_of_snoc.
    + rewrite fmap_app. apply NoDup_app. split_and!; [done| |apply NoDup_singleton].
      intros k Hk ->%list_elem_of_singleton. done.
    + rewrite length_app. simpl in *. lia.
  - rewrite window_short by (rewrite length_app; simpl; lia).
    eexists; split; [reflexivity|]. split; simpl.
    + done.
    + done.
    + by rewrite index_of_snoc.
    + rewrite fmap_app. apply NoDup_app. split_and!; [done| |apply NoDup_singleton].
      intros k Hk ->%list_elem_of_singleton. done.
    + rewrite length_app. simpl. lia.
Qed.

(** The same calls keep the two rings on the same window. *)
Lemma rings_in_step (n : nat) (l : list ProcessedTransactionRecord)
    (self : RingBuffer.t) (b : Ring) (win : list ProcessedTransactionRecord) :
  0 < n → lua_inv n self win → ring_inv n b win →
  ∃ win', lua_inv n (RingBuffer.push_all self l) win'
          ∧ ring_inv n (record_all b l) win'.
Proof.
  intros Hn. revert self b win.
  induction l as [|r l IH]; intros self b win Hlua Hts; [by exists win|].
  unfold RingBuffer.push_all, record_all. simpl.
  fold (RingBuffer.push_all (RingBuffer.push self r).2 l).
  fold (record_all (ProcessedTxnBuffer.record b r).2 l).
  destruct (ProcessedTxnBuffer.lookup b !! txnId r) as [e|] eqn:Hlk.
  - rewrite (record_known b r e Hlk).
    rewrite (lua_push_known self r e)
      by (by rewrite (lua_lookup _ _ _ Hlua), <-(inv_lookup _ _ _ Hts)).
    by eapply IH.
  - destruct (record_fresh n b win r Hts Hlk) as (b' & -> & Hts').
    destruct (lua_push_fresh n self win r Hn Hlua) as (self' & -> & Hlua').
    { by rewrite (lua_lookup _ _ _ Hlua), <-(inv_lookup _ _ _ Hts). }
    by eapply IH.
Qed.

(** X10 (the Lua ring mirrors the TypeScript ring).  For every positive
    size and every sequence of records, pushing the sequence into a Lua
    [RingBuffer] and recording it into a [ProcessedTxnBuffer] leave the
    same records in the same order ([list()] is [listNewestFirst()]
    reversed) and the same index, and the next [push] and [record] of any
    record return the same [inserted] flag and the same record. *)
Theorem lua_ring_mirrors_ts_ring (n : nat)
    (l : list ProcessedTransactionRecord) (txn : ProcessedTransactionRecord) :
  0 < n →
  let lua := RingBuffer.push_all (RingBuffer.new n None) l in
  let ts := record_all (ProcessedTxnBuffer.fresh n) l in
  RingBuffer.list lua = reverse (ProcessedTxnBuffer.listNewestFirst ts)
  ∧ RingBuffer.lookup lua = ProcessedTxnBuffer.lookup ts
  ∧ (RingBuffer.push lua txn).1 = (ProcessedTxnBuffer.record ts txn).1
  ∧ RingBuffer.new n (Some (RingBuffer.list lua)) = lua.
Proof.
  intros Hn lua ts. subst lua ts.
  destruct (rings_in_step n l _ _ [] Hn (lua_inv_empty n) (ring_inv_fresh n Hn))
    as (win & Hlua & Hts).
  assert (RingBuffer.lookup (RingBuffer.push_all (RingBuffer.new n None) l)
          = ProcessedTxnBuffer.lookup (record_all (ProcessedTxnBuffer.fresh n) l))
    as Hsame by (by rewrite (lua_lookup _ _ _ Hlua), (inv_lookup _ _ _ Hts)).
  split_and!.
  - unfold RingBuffer.list.
    by rewrite (lua_items _ _ _ Hlua), (ring_inv_list _ _ _ Hts), reverse_involutive.
  - done.
  - destruct (ProcessedTxnBuffer.lookup
                (record_all (ProcessedTxnBuffer.fresh n) l) !! txnId txn)
      as [e|] eqn:Hlk.
    + rewrite (record_known _ txn e Hlk).
      by rewrite (lua_push_known _ txn e) by (by rewrite Hsame).
    + destruct (record_fresh n _ win txn Hts Hlk) as (b' & -> & _).
      destruct (lua_push_fresh n _ win txn Hn Hlua) as (self' & -> & _);
        [by rewrite Hsame|done].
  - unfold RingBuffer.list. rewrite (lua_items _ _ _ Hlua). simpl.
    destruct (rings_in_step n win _ _ [] Hn (lua_inv_empty n) (ring_inv_fresh n Hn))
      as (win' & Hlua' & Hts').
    pose proof (rebuilt_ring n _ win Hn Hts) as Hre.
    assert (win' = win) as ->.
    { rewrite <-(reverse_involutive win'), <-(ring_inv_list _ _ _ Hts').
      by rewrite (ring_inv_list _ _ _ Hre), reverse_involutive. }
    by eapply lua_inv_unique.
Qed.

Lemma lua_ring_mirrors_ts_ring_witness :
  let l := (λ id, candidate 0 0 (credit_one id)) <$> scenario_ids in
  RingBuffer.list (RingBuffer.push_all (RingBuffer.new 64 None) l)
  = reverse (ProcessedTxnBuffer.listNewestFirst
               (record_all (ProcessedTxnBuffer.fresh 64) l)).
Proof.
  intros l.
  exact (proj1 (lua_ring_mirrors_ts_ring 64 l (candidate 0 0 (credit_one "T1"))
                  ltac:(lia))).
Defined.

(** One command on the Lua session, in terms of the applier on a ring that
    stores the same window. *)
Lemma lua_command_step (now bal : Z) (c : EconomyTransactionCommand)
    (ring : RingBuffer.t) (b : Ring) (win : list ProcessedTransactionRecord) :
  lua_inv 64 ring win → ring_inv 64 b win →
  let out := applyIdempotentTransaction now bal (command_params c) b in
  ∃ ring' win',
    applyCommand_session now
      {| session_data := {| profile_balance := bal; profile_processed := win |};
         session_ring := ring |} c
    = ({| session_data :=
            {| profile_balance := balance out.1; profile_processed := win' |};
          session_ring := ring' |},
       if processed out.1 then Some (record out.1) else None)
    ∧ lua_inv 64 ring' win' ∧ ring_inv 64 out.2 win'.
Proof.
  intros Hlua Hts out. subst out. unfold applyCommand_session. simpl.
  change {| txnId := c_txnId c; delta := c_delta c;
            balanceAfter := (bal + c_delta c)%Z; actor := c_actor c;
            source := c_source c; processedAt := now; reason := c_reason c |}
    with (candidate now bal (command_params c)).
  destruct (ProcessedTxnBuffer.lookup b !! p_txnId (command_params c))
    as [e|] eqn:Hlk.
  - rewrite (apply_known now bal (command_params c) b e Hlk).
    rewrite (lua_push_known ring (candidate now bal (command_params c)) e)
      by (by rewrite (lua_lookup _ _ _ Hlua), <-(inv_lookup _ _ _ Hts)).
    simpl. by exists ring, win.
  - destruct (apply_fresh 64 now bal (command_params c) b win Hts Hlk)
      as (b' & -> & Hts').
    destruct (lua_push_fresh 64 ring win (candidate now bal (command_params c))
                ltac:(lia) Hlua) as (ring' & -> & Hlua').
    { by rewrite (lua_lookup _ _ _ Hlua), <-(inv_lookup _ _ _ Hts). }
    simpl. eexists ring', _. split_and!; [|done|done].
    unfold RingBuffer.list. by rewrite (lua_items _ _ _ Hlua').
Qed.

Lemma lua_commands_sim (ucmds : list (Z * EconomyTransactionCommand)) (bal : Z)
    (ring : RingBuffer.t) (b : Ring) (win : list ProcessedTransactionRecord) :
  lua_inv 64 ring win → ring_inv 64 b win →
  let lua := applyCommands
               {| session_data :=
                    {| profile_balance := bal; profile_processed := win |};
                  session_ring := ring |} ucmds in
  let ts := updateAll {| profile_balance := bal; profile_processed := win |}
                      ucmds in
  session_data lua.1 = ts.2
  ∧ lua.2 = processed_records ts.1
  ∧ lua_inv 64 (session_ring lua.1) (profile_processed (session_data lua.1))
  ∧ ∃ b', ring_inv 64 b' (profile_processed (session_data lua.1)).
Proof.
  revert bal ring b win.
  induction ucmds as [|[now c] ucmds IH]; intros bal ring b win Hlua Hts.
  { simpl. split_and!; [done|done|done|by exists b]. }
  simpl.
  destruct (lua_command_step now bal c ring b win Hlua Hts)
    as (ring' & win' & -> & Hlua' & Hts').
  rewrite (update_attempt_spec now bal c b win Hts).
  rewrite (ring_inv_list _ _ _ Hts'), reverse_involutive.
  specialize (IH (balance (applyIdempotentTransaction now bal (command_params c) b).1)
                 ring' _ win' Hlua' Hts').
  simpl in IH. destruct IH as (Hdata & Hem & Hinv & Hb).
  destruct (applyCommands _ ucmds) as [st em].
  destruct (updateAll _ ucmds) as [rs p]. simpl in *.
  split_and!; [done| |done|done].
  unfold processed_records. rewrite filter_cons. rewrite Hem.
  destruct (processed _) eqn:Hp.
  - by rewrite decide_True by done.
  - by rewrite decide_False by done.
Qed.

(** X11 (the Lua handler agrees with the TypeScript store path).  For
    every sequence of commands on a new wallet, the session the game
    server keeps ends with the balance and the [processed] list that
    [updateEconomyProfile] would have stored; the records it broadcasts
    and posts to the audit API are exactly the records of the commands
    that were processed, replays emitting nothing; and attaching the
    profile data of the session again gives back the same session. *)
Theorem lua_handler_agrees_with_store
    (ucmds : list (Z * EconomyTransactionCommand)) :
  let lua := applyCommands (attachProfile empty_profile) ucmds in
  let ts := updateAll empty_profile ucmds in
  session_data lua.1 = ts.2
  ∧ lua.2 = processed_records ts.1
  ∧ attachProfile (session_data lua.1) = lua.1.
Proof.
  intros lua ts. subst lua ts.
  pose proof (lua_commands_sim ucmds 0 (RingBuffer.new 64 None)
                (ProcessedTxnBuffer.fresh 64) []
                (lua_inv_empty 64) (ring_inv_fresh 64 ltac:(lia)))
    as (Hdata & Hem & Hlua & b' & Hts).
  change (applyCommands
            {| session_data := {| profile_balance := 0; profile_processed := [] |};
               session_ring := RingBuffer.new 64 None |} ucmds)
    with (applyCommands (attachProfile empty_profile) ucmds) in *.
  change {| profile_balance := 0; profile_processed := [] |}
    with empty_profile in *.
  split_and!; [done|done|].
  destruct (applyCommands (attachProfile empty_profile) ucmds) as [st em].
  simpl in *. destruct st as [d ring]. simpl in *.
  unfold attachProfile, RING_SIZE. f_equal. simpl.
  destruct (rings_in_step 64 (profile_processed d) _ _ []
              ltac:(lia) (lua_inv_empty 64) (ring_inv_fresh 64 ltac:(lia)))
    as (win' & Hlua' & Hts').
  pose proof (rebuilt_ring 64 b' _ ltac:(lia) Hts) as Hre.
  assert (win' = profile_processed d) as ->.
  { rewrite <-(reverse_involutive win'), <-(ring_inv_list _ _ _ Hts').
    by rewrite (ring_inv_list _ _ _ Hre), reverse_involutive. }
  by eapply lua_inv_unique.
Qed.

(** X12 (what the bot finds).  After any history of a wallet, once
    [updateEconomyProfile] has handled a command the stored profile lets
    [waitForTransaction] find, under the command's identifier, exactly the
    record the update returned; and when the command was processed,
    [handleBalance] shows the balance of that record and its identifier
    as the last transaction. *)
Theorem bot_finds_the_returned_record
    (history : list (Z * EconomyTransactionCommand)) (now : Z)
    (c : EconomyTransactionCommand) (v : option string) :
  let before := (updateAll empty_profile history).2 in
  let out := updateEconomyProfile_attempt now before c in
  let entry := {| data := Some out.2; version := v |} in
  find_processed entry (c_txnId c) = Some (record out.1)
  ∧ (processed out.1 = true →
     balance_view entry = (balanceAfter (record out.1), Some (c_txnId c))).
Proof.
  intros before out entry. subst before out entry.
  pose proof (ring_inv_fresh 64 ltac:(lia)) as H0.
  unfold empty_profile. rewrite (updateAll_profile history 0 _ [] H0).
  destruct (applyAll_ledger 64 (params_of history) 0 _ [] ltac:(lia) H0)
    as (win & Hinv & _).
  { split; [done|]. intros r Hr. done. }
  rewrite (ring_inv_list _ _ _ Hinv), reverse_involutive.
  set (run := applyAll 0 (ProcessedTxnBuffer.fresh 64) (params_of history)) in *.
  rewrite (update_attempt_spec now run.1.2 c run.2 win Hinv). simpl.
  unfold find_processed, balance_view. simpl.
  destruct (ProcessedTxnBuffer.lookup run.2 !! p_txnId (command_params c))
    as [e|] eqn:Hlk.
  - rewrite (apply_known now run.1.2 (command_params c) run.2 e Hlk). simpl.
    rewrite (ring_inv_list _ _ _ Hinv), reverse_involutive.
    split; [|done].
    apply (ring_inv_get_Some _ _ _ _ _ Hinv) in Hlk as [Hin Hid].
    simpl in Hid.
    destruct (list_find (λ entry, txnId entry = c_txnId c) win)
      as [[i x]|] eqn:Hfind.
    + apply list_find_Some in Hfind as (Hx & Hidx & _). simpl. f_equal.
      apply list_elem_of_lookup in Hin as [j Hj].
      pose proof (inv_nodup _ _ _ Hinv) as Hnd.
      assert (i = j) as ->.
      { eapply NoDup_lookup; [exact Hnd| |].
        - rewrite list_lookup_fmap, Hx. simpl. reflexivity.
        - rewrite list_lookup_fmap, Hj. simpl. by rewrite Hid, Hidx. }
      congruence.
    + apply list_find_None in Hfind.
      rewrite Forall_forall in Hfind. by destruct (Hfind e Hin).
  - destruct (apply_fresh 64 now run.1.2 (command_params c) run.2 win Hinv Hlk)
      as (b' & -> & Hinv'). simpl.
    rewrite (ring_inv_list _ _ _ Hinv'), reverse_involutive.
    set (cand := candidate now run.1.2 (command_params c)) in *.
    assert (last (window 64 (win ++ [cand])) = Some cand) as Hlast.
    { unfold window. rewrite last_lookup, length_drop, lookup_drop, length_app.
      simpl.
      match goal with
      | |- (_ ++ _) !! ?i = _ => replace i with (length win) by
            (pose proof (inv_bound _ _ _ Hinv); lia)
      end.
      by rewrite lookup_app_r, Nat.sub_diag by lia. }
    split.
    + destruct (list_find (λ entry, txnId entry = c_txnId c)
                  (window 64 (win ++ [cand]))) as [[i x]|] eqn:Hfind.
      * apply list_find_Some in Hfind as (Hx & Hidx & _). simpl. f_equal.
        pose proof (inv_nodup _ _ _ Hinv') as Hnd.
        rewrite last_lookup in Hlast.
        assert (i = pred (length (window 64 (win ++ [cand])))) as ->.
        { eapply NoDup_lookup; [exact Hnd| |].
          - rewrite list_lookup_fmap, Hx. simpl. reflexivity.
          - rewrite list_lookup_fmap, Hlast. simpl. by rewrite Hidx. }
        congruence.
      * apply list_find_None in Hfind. rewrite Forall_forall in Hfind.
        destruct (Hfind cand); [|done].
        apply last_Some_elem_of. exact Hlast.
    + intros _. by rewrite Hlast.
Qed.

Lemma bot_finds_the_returned_record_witness :
  let before := (updateAll empty_profile scenario_commands).2 in
  let out := updateEconomyProfile_attempt 7 before (credit_one_command "T1") in
  balance_view {| data := Some out.2; version := None |}
  = (balanceAfter (record out.1), Some "T1").
Proof.
  intros before out.
  refine (proj2 (bot_finds_the_returned_record scenario_commands 7
                   (credit_one_command "T1") None) _).
  vm_compute. reflexivity.
Defined.

(* ================================================================== *)
(** * Further properties of the audit sink *)

(** Either a request leaves the store as it is, or it is a verified
    request with a new key, answered 200 and not deduped, and the store
    gains its delivery record and, if the [txnId] is new, its audit row. *)
Lemma serve_store_change (rt : Runtime) (db : Db) (req : Request) :
  (serve rt db req).2 = db
  ∨ ∃ payload key,
      body_payload req = Some payload
      ∧ verifySignature rt payload
          (nullish (header_X_Signature req) (body_signature req)) = Ok true
      ∧ nullish (header_Idempotency_Key req) (body_idempotencyKey req) = Some key
      ∧ key ≠ EmptyString
      ∧ webhookDelivery db !! key = None
      ∧ (serve rt db req).1 = {| status := 200; body := LogResponse true false |}
      ∧ webhookDelivery (serve rt db req).2
        = <[key := hashPayload rt payload]> (webhookDelivery db)
      ∧ auditLog (serve rt db req).2
        = match auditLog db !! pl_txnId payload with
          | Some _ => auditLog db
          | None => <[pl_txnId payload := audit_row payload]> (auditLog db)
          end.
Proof.
  unfold serve, postLogTransactions.
  destruct (body_payload req) as [payload|]; [|by left].
  destruct (verifySignature rt payload _) as [[|]|] eqn:Hsig; [|by left|by left].
  destruct (nullish (header_Idempotency_Key req) (body_idempotencyKey req))
    as [[|c k]|] eqn:Hkey; [by left| |by left].
  unfold log_transaction, webhookDelivery_create.
  destruct (webhookDelivery db !! String c k) as [existing|] eqn:Hex.
  - destruct (negb (String.eqb existing (hashPayload rt payload))); by left.
  - right. exists payload, (String c k). simpl.
    split_and!; try done.
    + unfold auditLog_upsert. simpl.
      by destruct (auditLog db !! pl_txnId payload).
    + unfold auditLog_upsert. simpl.
      by destruct (auditLog db !! pl_txnId payload).
Qed.

(** X13 (webhook dedup).  When a POST has been answered 200, posting the
    same request again is answered 200 [{accepted: true, deduped: true}]
    and leaves the store, audit rows included, exactly as the first POST
    left it. *)
Theorem repeated_post_is_deduped (rt : Runtime) (db : Db) (req : Request) :
  status (serve rt db req).1 = 200 →
  let db1 := (serve rt db req).2 in
  serve rt db1 req = ({| status := 200; body := LogResponse true true |}, db1).
Proof.
  intros H200 db1.
  assert (∃ payload key,
            body_payload req = Some payload
            ∧ verifySignature rt payload
                (nullish (header_X_Signature req) (body_signature req)) = Ok true
            ∧ nullish (header_Idempotency_Key req) (body_idempotencyKey req)
              = Some key
            ∧ key ≠ EmptyString) as (payload & key & Hp & Hsig & Hkey & Hne).
  { revert H200. unfold serve, postLogTransactions.
    destruct (body_payload req) as [payload|]; [|done].
    destruct (verifySignature rt payload _) as [[|]|] eqn:Hsig; [|done|done].
    destruct (nullish (header_Idempotency_Key req) (body_idempotencyKey req))
      as [[|c k]|] eqn:Hkey; [done| |done].
    intros _. by exists payload, (String c k). }
  pose proof (accepted_key_recorded rt db req key payload Hkey Hp H200) as Hrec.
  fold db1 in Hrec.
  unfold serve, postLogTransactions. rewrite Hp, Hsig, Hkey.
  destruct key as [|c k]; [done|].
  unfold log_transaction, webhookDelivery_create. rewrite Hrec.
  by rewrite String.eqb_refl.
Qed.

Lemma repeated_post_is_deduped_witness :
  let req := demo_request (Some "k1") (demo_payload "A" 10) in
  let db1 := (serve demo_runtime empty_db req).2 in
  serve demo_runtime db1 req
  = ({| status := 200; body := LogResponse true true |}, db1).
Proof.
  apply (repeated_post_is_deduped demo_runtime empty_db
           (demo_request (Some "k1") (demo_payload "A" 10))).
  vm_compute. reflexivity.
Defined.



(** X15 (the store only grows).  No request removes or changes a delivery
    record or an audit row: whatever the request, every key keeps its
    payload hash and every [txnId] keeps its row, also when the same
    [txnId] is posted again under another key or with other fields. *)
Theorem store_only_grows (rt : Runtime) (db : Db) (req : Request)
    (key hash txn : string) (row : AuditRow) :
  (webhookDelivery db !! key = Some hash →
   webhookDelivery (serve rt db req).2 !! key = Some hash)
  ∧ (auditLog db !! txn = Some row →
     auditLog (serve rt db req).2 !! txn = Some row)
  ∧ size (auditLog (serve rt db req).2) ≤ size (auditLog db) + 1.
Proof.
  destruct (serve_store_change rt db req)
    as [->|(payload & k & _ & _ & _ & _ & Hnew & _ & Hwd & Hal)].
  { split_and!; [done|done|lia]. }
  rewrite Hwd, Hal. split_and!.
  - intros Hk. rewrite lookup_insert_ne; [done|]. intros <-. congruence.
  - intros Ht. destruct (auditLog db !! pl_txnId payload) eqn:E; [done|].
    rewrite lookup_insert_ne; [done|]. intros <-. congruence.
  - destruct (auditLog db !! pl_txnId payload) eqn:E; [lia|].
    rewrite map_size_insert_None by done. lia.
Qed.

Lemma store_only_grows_witness :
  let db1 := (serve demo_runtime empty_db
                (demo_request (Some "k1") (demo_payload "A" 10))).2 in
  let db2 := (serve demo_runtime db1
                (demo_request (Some "k2") (demo_payload "A" 99))).2 in
  auditLog db2 !! "A" = Some (audit_row (demo_payload "A" 10)).
Proof.
  intros db1 db2.
  refine (proj1 (proj2 (store_only_grows demo_runtime db1
                          (demo_request (Some "k2") (demo_payload "A" 99))
                          "k1" "" "A" (audit_row (demo_payload "A" 10)))) _).
  vm_compute. reflexivity.
Defined.

Lemma toLowerCase_expected_signature (rt : Runtime) (payload : Payload) :
  toLowerCase (expected_signature rt payload) = expected_signature rt payload.
Proof.
  unfold expected_signature.
  rewrite <-(toLowerCase_toUpperCase_hex (hmac_sha256 rt _ _)) at 1.
  by rewrite toLowerCase_idemp, toLowerCase_toUpperCase_hex.
Qed.

(** X16 (a signature does not carry over).  A request whose payload is
    not the one its signature was computed for, the two payloads having
    different HMACs, is answered 401 [invalid signature] and stores
    nothing, whatever its idempotency key. *)
Theorem signature_of_another_payload_is_refused
    (rt : Runtime) (db : Db) (req : Request) (signed sent : Payload) :
  hmac_digest_32 rt →
  body_payload req = Some sent →
  nullish (header_X_Signature req) (body_signature req)
  = Some (expected_signature rt signed) →
  expected_signature rt signed ≠ expected_signature rt sent →
  serve rt db req
  = ({| status := 401; body := ErrorBody "invalid signature" |}, db).
Proof.
  intros H32 Hp Hsig Hne. unfold serve, postLogTransactions.
  rewrite Hp, Hsig, (verifySignature_decides rt sent _ H32).
  rewrite toLowerCase_expected_signature.
  by rewrite bool_decide_eq_false_2.
Qed.

Lemma signature_of_another_payload_is_refused_witness :
  serve demo_runtime empty_db
    {| header_X_Signature :=
         Some (expected_signature demo_runtime (demo_payload "A" 10));
       header_Idempotency_Key := Some "k1";
       body_idempotencyKey := None; body_signature := None;
       body_payload := Some (demo_payload "A" 1000) |}
  = ({| status := 401; body := ErrorBody "invalid signature" |}, empty_db).
Proof.
  apply (signature_of_another_payload_is_refused demo_runtime empty_db _
           (demo_payload "A" 10) (demo_payload "A" 1000) demo_digest_32).
  - reflexivity.
  - reflexivity.
  - vm_compute. discriminate.
Defined.

(* ================================================================== *)
(** * Further properties of the Open Cloud client *)

Lemma request_attempt_fails (w : World) (response : HttpResponse)
    (rest : list HttpResponse) :
  net w = response :: rest →
  attempt_fails response = true →
  (request_attempt w).1 = Err (failure_of response)
  ∧ net (request_attempt w).2 = rest
  ∧ fetches (trace (request_attempt w).2) = fetches (trace w) + 1.
Proof.
  intros Hnet Hf.
  destruct (request_attempt_effect w) as (waits & Htr & Hw & Hn).
  rewrite Htr, fetches_app, Hn, Hnet. unfold fetches at 2. simpl.
  fold (fetches waits). rewrite Hw. split_and!; [|done|lia].
  unfold request_attempt, fetch, failure_of, attempt_fails in *. rewrite Hnet.
  destruct (is_transient response); simpl in *; [done|]. by rewrite Hf.
Qed.

Lemma request_attempt_ok (w : World) (response : HttpResponse)
    (rest : list HttpResponse) :
  net w = response :: rest →
  attempt_fails response = false →
  request_attempt w
  = (Ok response, {| net := rest; rng := rng w; trace := trace w ++ [EvFetch] |}).
Proof.
  intros Hnet Hf. unfold request_attempt, fetch, attempt_fails in *.
  rewrite Hnet. apply orb_false_elim in Hf as [-> ->]. done.
Qed.

Lemma request_attempt_rejected (w : World) :
  net w = [] →
  request_attempt w
  = (Err FetchRejected,
     {| net := []; rng := rng w; trace := trace w ++ [EvFetch] |}).
Proof. intros Hnet. unfold request_attempt, fetch. by rewrite Hnet. Qed.

Lemma backoff_step_effect (base : Q) (attempt : nat) (w : World) :
  let w' := delay (backoff_wait base attempt (random w).1) (random w).2 in
  net w' = net w ∧ fetches (trace w') = fetches (trace w).
Proof.
  simpl. destruct (random_effect w) as [Ht Hn]. rewrite Ht, Hn.
  split; [done|]. rewrite fetches_app. unfold fetches at 2. simpl. lia.
Qed.

(** The first accepted response ends the loop. *)
Lemma request_loop_succeeds (base : Q) (fails : list HttpResponse)
    (ok : HttpResponse) (rest : list HttpResponse) (left attempt : nat)
    (w : World) :
  net w = fails ++ ok :: rest →
  Forall (λ r, attempt_fails r = true) fails →
  attempt_fails ok = false →
  length fails ≤ left →
  let run := withBackoff_loop request_attempt base attempt left w in
  run.1 = Ok ok
  ∧ net run.2 = rest
  ∧ fetches (trace run.2) = fetches (trace w) + (length fails + 1).
Proof.
  revert left attempt w.
  induction fails as [|f fails IH]; intros left attempt w Hnet Hall Hok Hlen;
    cbv zeta.
  - simpl in Hnet.
    rewrite (withBackoff_loop_ok _ _ _ _ _ _ _ (request_attempt_ok w ok rest Hnet Hok)).
    simpl. rewrite fetches_app. unfold fetches at 2. simpl. split_and!; [done|done|lia].
  - apply Forall_cons in Hall as [Hf Hall]. simpl in Hnet, Hlen.
    destruct left as [|left]; [lia|].
    destruct (request_attempt_fails w f _ Hnet Hf) as (Hres & Hn & Hfe).
    destruct (request_attempt w) as [res w1] eqn:Hatt.
    simpl in Hres, Hn, Hfe. subst res.
    rewrite (withBackoff_loop_retry _ _ _ _ _ _ _ Hatt).
    destruct (backoff_step_effect base attempt w1) as [Hn' Hfe'].
    destruct (IH left (S attempt)
                (delay (backoff_wait base attempt (random w1).1) (random w1).2))
      as (-> & -> & ->); [by rewrite Hn', Hn|done|done|lia|].
    split_and!; [done|done|]. rewrite Hfe', Hfe. simpl. lia.
Qed.

(** When no attempt is accepted, all are made and the last error stands. *)
Lemma request_loop_gives_up (base : Q) (left attempt : nat) (w : World) :
  left < length (net w) →
  Forall (λ r, attempt_fails r = true) (take (S left) (net w)) →
  let run := withBackoff_loop request_attempt base attempt left w in
  fetches (trace run.2) = fetches (trace w) + (left + 1)
  ∧ net run.2 = drop (S left) (net w)
  ∧ ∃ last, net w !! left = Some last ∧ run.1 = Err (failure_of last).
Proof.
  revert attempt w. induction left as [|left IH]; intros attempt w Hlen Hall;
    cbv zeta;
    destruct (net w) as [|response rest] eqn:Hnet; simpl in Hlen; try lia;
    simpl in Hall; apply Forall_cons in Hall as [Hf Hall];
    destruct (request_attempt_fails w response rest Hnet Hf) as (Hres & Hn & Hfe);
    destruct (request_attempt w) as [res w1] eqn:Hatt;
    simpl in Hres, Hn, Hfe; subst res.
  - rewrite (withBackoff_loop_last _ _ _ _ _ _ Hatt). simpl.
    rewrite drop_0. split_and!; [lia|done|]. by exists response.
  - rewrite (withBackoff_loop_retry _ _ _ _ _ _ _ Hatt).
    destruct (backoff_step_effect base attempt w1) as [Hn' Hfe'].
    destruct (IH (S attempt)
                (delay (backoff_wait base attempt (random w1).1) (random w1).2))
      as (Hf' & Hnet' & last & Hlast & Hr).
    { rewrite Hn', Hn. lia. }
    { by rewrite Hn', Hn. }
    split_and!.
    + rewrite Hf', Hfe', Hfe. lia.
    + by rewrite Hnet', Hn', Hn.
    + exists last. split; [|done]. by rewrite Hn', Hn in Hlast.
Qed.

(** When the server cannot be reached, every attempt is rejected. *)
Lemma request_loop_unreachable (base : Q) (left attempt : nat) (w : World) :
  net w = [] →
  let run := withBackoff_loop request_attempt base attempt left w in
  run.1 = Err FetchRejected
  ∧ fetches (trace run.2) = fetches (trace w) + (left + 1).
Proof.
  revert attempt w. induction left as [|left IH]; intros attempt w Hnet;
    cbv zeta; pose proof (request_attempt_rejected w Hnet) as Hatt.
  - rewrite (withBackoff_loop_last _ _ _ _ _ _ Hatt). simpl.
    rewrite fetches_app. unfold fetches at 2. simpl. split; [done|lia].
  - rewrite (withBackoff_loop_retry _ _ _ _ _ _ _ Hatt).
    set (w1 := {| net := []; rng := rng w; trace := trace w ++ [EvFetch] |}) in *.
    destruct (backoff_step_effect base attempt w1) as [Hn' Hfe'].
    destruct (IH (S attempt)
                (delay (backoff_wait base attempt (random w1).1) (random w1).2))
      as [-> ->]; [by rewrite Hn'|].
    split; [done|]. rewrite Hfe'. subst w1. simpl.
    rewrite fetches_app. unfold fetches at 2. simpl. lia.
Qed.

(** X17 (success ends the retries).  When the server answers a request
    with some failures, no more of them than [maxRetries], and then with a
    response that is accepted, [request] returns that response; it has
    made one fetch per failure and one more, and the responses that follow
    are left for later requests. *)
Theorem request_returns_first_accepted_response
    (options : OpenCloudClientOptions) (w : World)
    (fails : list HttpResponse) (ok : HttpResponse) (rest : list HttpResponse) :
  net w = fails ++ ok :: rest →
  Forall (λ r, attempt_fails r = true) fails →
  attempt_fails ok = false →
  length fails ≤ maxRetries_of options →
  let run := request options None w in
  run.1 = Ok ok
  ∧ net run.2 = rest
  ∧ fetches (trace run.2) = fetches (trace w) + (length fails + 1).
Proof.
  intros Hnet Hall Hok Hlen. unfold request, withBackoff.
  by apply request_loop_succeeds.
Qed.

Lemma request_returns_first_accepted_response_witness :
  let w := {| net := [respond 503 None; respond 429 None; respond 200 None;
                      respond 500 None];
              rng := []; trace := [] |} in
  (request default_options None w).1 = Ok (respond 200 None)
  ∧ net (request default_options None w).2 = [respond 500 None]
  ∧ fetches (trace (request default_options None w).2)
    = fetches (trace w) + (2 + 1).
Proof.
  intros w.
  refine (request_returns_first_accepted_response default_options w
            [respond 503 None; respond 429 None] (respond 200 None)
            [respond 500 None] eq_refl _ eq_refl _).
  - repeat constructor.
  - vm_compute. lia.
Defined.

(** X18 (every failure is retried alike).  [withBackoff] does not look at
    the error: a request whose first [maxRetries + 1] responses are all
    refused, be they 429, 5xx or client errors such as 400, 403 or 404,
    makes all [maxRetries + 1] fetches and then throws the error of the
    last response; and when the server cannot be reached at all it makes
    the same number of fetches and throws the rejection of [fetch]. *)
Theorem request_retries_every_failure
    (options : OpenCloudClientOptions) (w : World) :
  let retries := maxRetries_of options in
  let run := request options None w in
  (retries < length (net w) →
   Forall (λ r, attempt_fails r = true) (take (S retries) (net w)) →
   fetches (trace run.2) = fetches (trace w) + (retries + 1)
   ∧ net run.2 = drop (S retries) (net w)
   ∧ ∃ last, net w !! retries = Some last ∧ run.1 = Err (failure_of last))
  ∧ (net w = [] →
     run.1 = Err FetchRejected
     ∧ fetches (trace run.2) = fetches (trace w) + (retries + 1)).
Proof.
  intros retries run. subst retries run. unfold request, withBackoff. split.
  - apply request_loop_gives_up.
  - apply request_loop_unreachable.
Qed.

Lemma request_retries_every_failure_witness :
  let w := {| net := replicate 6 {| http_status := 404; retry_after := None;
                                    error_code := Some 1%Z |};
              rng := []; trace := [] |} in
  let run := request default_options None w in
  fetches (trace run.2) = 0 + (4 + 1)
  ∧ net run.2 = drop 5 (net w)
  ∧ ∃ last, net w !! 4 = Some last ∧ run.1 = Err (failure_of last).
Proof.
  intros w run.
  refine (proj1 (request_retries_every_failure default_options w) _ _).
  - vm_compute. lia.
  - repeat constructor.
Defined.

Lemma pow2_succ (a : nat) :
  (inject_Z (2 ^ Z.of_nat (S a)) == 2 * inject_Z (2 ^ Z.of_nat a))%Q.
Proof.
  rewrite Nat2Z.inj_succ, Z.pow_succ_r by lia. by rewrite inject_Z_mult.
Qed.

Lemma backoff_budget_succ (base : Q) (a left : nat) :
  (backoff_budget base a (S left)
   == base * inject_Z (2 ^ Z.of_nat a) + backoff_budget base (S a) left)%Q.
Proof. unfold backoff_budget. rewrite !pow2_succ. ring. Qed.

Lemma total_delay_app (t1 t2 : list Event) :
  (total_delay (t1 ++ t2) == total_delay t1 + total_delay t2)%Q.
Proof.
  induction t1 as [|[|ms] t1 IH]; simpl.
  - ring.
  - exact IH.
  - rewrite IH. ring.
Qed.

(** Without [Retry-After] waits, the loop waits at most its budget. *)
Lemma request_loop_delay_bound (base : Q) (left attempt : nat) (w : World) :
  (0 <= base)%Q →
  Forall (λ r, retry_after_ms r = None) (net w) →
  Forall (λ r, (0 <= r)%Q ∧ (r < 1)%Q) (rng w) →
  (total_delay (trace (withBackoff_loop request_attempt base attempt left w).2)
   <= total_delay (trace w) + backoff_budget base attempt left
      + 100 * inject_Z (Z.of_nat left))%Q.
Proof.
  intros Hbase. revert attempt w.
  induction left as [|left IH]; intros attempt w Hnet Hrng.
  - assert (total_delay (trace (request_attempt w).2) == total_delay (trace w))%Q
      as Hatt.
    { unfold request_attempt, fetch.
      destruct (net w) as [|r rest]; simpl.
      - rewrite total_delay_app. simpl. ring.
      - apply Forall_cons in Hnet as [Hr _]. rewrite Hr.
        destruct (is_transient r); [|destruct (negb (response_ok r))]; simpl;
          rewrite total_delay_app; simpl; ring. }
    simpl. destruct (request_attempt w) as [[v|e] w1]; simpl in *;
      rewrite Hatt; unfold backoff_budget;
      change (inject_Z (2 ^ Z.of_nat 0)) with 1%Q;
      change (inject_Z (Z.of_nat 0)) with 0%Q;
      generalize (base * inject_Z (2 ^ Z.of_nat attempt))%Q; intros x; lra.
  - assert (total_delay (trace (request_attempt w).2) == total_delay (trace w)
            ∧ Forall (λ r, retry_after_ms r = None) (net (request_attempt w).2)
            ∧ rng (request_attempt w).2 = rng w)%Q as (Hatt & Hnet' & Hrng').
    { unfold request_attempt, fetch.
      destruct (net w) as [|r rest]; simpl.
      - rewrite total_delay_app. simpl. split_and!; [ring|done|done].
      - apply Forall_cons in Hnet as [Hr Hrest]. rewrite Hr.
        destruct (is_transient r); [|destruct (negb (response_ok r))]; simpl;
          rewrite total_delay_app; simpl; (split_and!; [ring|done|done]). }
    destruct (request_attempt w) as [[v|e] w1] eqn:Eatt; simpl in Hatt, Hnet', Hrng'.
    + rewrite (withBackoff_loop_ok _ _ _ _ _ _ _ Eatt). simpl. rewrite Hatt.
      assert (0 <= backoff_budget base attempt (S left))%Q as Hb.
      { unfold backoff_budget.
        assert (1 <= inject_Z (2 ^ Z.of_nat (S left)))%Q.
        { rewrite <-(Zle_Qle 1). apply (Z.pow_le_mono_r 2 0); lia. }
        assert (0 <= inject_Z (2 ^ Z.of_nat attempt))%Q.
        { rewrite <-(Zle_Qle 0). apply Z.pow_nonneg. lia. }
        apply Qmult_le_0_compat; [apply Qmult_le_0_compat; done|lra]. }
      assert (0 <= inject_Z (Z.of_nat (S left)))%Q
        by (rewrite <-(Zle_Qle 0); lia).
      lra.
    + rewrite (withBackoff_loop_retry _ _ _ _ _ _ _ Eatt).
      assert ((0 <= (random w1).1)%Q ∧ ((random w1).1 < 1)%Q
              ∧ Forall (λ r, (0 <= r)%Q ∧ (r < 1)%Q) (rng (random w1).2)
              ∧ net (random w1).2 = net w1
              ∧ trace (random w1).2 = trace w1) as (Hr0 & Hr1 & Hrng1 & Hn1 & Ht1).
      { unfold random. rewrite Hrng'. destruct (rng w) as [|r rs]; simpl.
        - split_and!; [lra|lra|by rewrite Hrng'|done|done].
        - apply Forall_cons in Hrng as [[? ?] ?]. by split_and!. }
      eapply Qle_trans; [apply IH|].
      * simpl. by rewrite Hn1.
      * simpl. done.
      * simpl. rewrite total_delay_app, Ht1, Hatt. simpl.
        rewrite backoff_budget_succ. unfold backoff_wait.
        rewrite Nat2Z.inj_succ, <-Z.add_1_r, inject_Z_plus. simpl.
        generalize (base * inject_Z (2 ^ Z.of_nat attempt))%Q.
        generalize (backoff_budget base (S attempt) left).
        generalize (inject_Z (Z.of_nat left)). intros x y z.
        change (inject_Z 1) with 1%Q. lra.
Qed.

(** X19 (how long the backoff can take).  With a non-negative base delay,
    responses that carry no usable [Retry-After] and [Math.random] in
    [0, 1), the waits of one [request] add up to at most
    [backoffMs * (2^maxRetries - 1) + 100 * maxRetries] milliseconds:
    4150 ms with the default options. *)
Theorem request_backoff_time_bounded (options : OpenCloudClientOptions) (w : World) :
  (0 <= backoffMs_of options)%Q →
  Forall (λ r, retry_after_ms r = None) (net w) →
  Forall (λ r, (0 <= r)%Q ∧ (r < 1)%Q) (rng w) →
  (total_delay (trace (request options None w).2)
   <= total_delay (trace w)
      + backoffMs_of options
        * (inject_Z (2 ^ Z.of_nat (maxRetries_of options)) - 1)
      + 100 * inject_Z (Z.of_nat (maxRetries_of options)))%Q
  ∧ (backoffMs_of default_options
     * (inject_Z (2 ^ Z.of_nat (maxRetries_of default_options)) - 1)
     + 100 * inject_Z (Z.of_nat (maxRetries_of default_options)) == 4150)%Q.
Proof.
  intros Hbase Hnet Hrng. split; [|reflexivity].
  unfold request, withBackoff.
  eapply Qle_trans; [by apply request_loop_delay_bound|].
  unfold backoff_budget. simpl.
  generalize (inject_Z (2 ^ Z.of_nat (maxRetries_of options)) - 1)%Q.
  generalize (backoffMs_of options). intros x y.
  assert (x * 1 * y == x * y)%Q as -> by ring. lra.
Qed.

Lemma request_backoff_time_bounded_witness :
  let w := {| net := replicate 9 (respond 503 None);
              rng := [1 # 2; 9 # 10; 0%Q; 1 # 3]; trace := [] |} in
  (total_delay (trace (request default_options None w).2)
   <= total_delay (trace w)
      + backoffMs_of default_options
        * (inject_Z (2 ^ Z.of_nat (maxRetries_of default_options)) - 1)
      + 100 * inject_Z (Z.of_nat (maxRetries_of default_options)))%Q.
Proof.
  intros w.
  refine (proj1 (request_backoff_time_bounded default_options w _ _ _)).
  - vm_compute. discriminate.
  - repeat constructor.
  - repeat constructor; vm_compute; congruence.
Defined.

(* ================================================================== *)
(** * Properties of the data-store calls *)

Lemma withBackoff_loop_zero {T} (fn : World → result RequestError T * World)
    (base : Q) (attempt : nat) (w : World) :
  withBackoff_loop fn base attempt 0 w = fn w.
Proof. simpl. by destruct (fn w) as [[v|e] w1]. Qed.

Lemma getDataStoreEntry_ok (env : StoreEnv) (options : OpenCloudClientOptions)
    (w : World) (response : HttpResponse) (rest : list HttpResponse) :
  net w = response :: rest →
  attempt_fails response = false →
  getDataStoreEntry env options w
  = (Ok (entry_of_response env response),
     {| net := rest; rng := rng w; trace := trace w ++ [EvFetch] |}).
Proof.
  intros Hnet Hok. unfold getDataStoreEntry, request, withBackoff.
  by rewrite (withBackoff_loop_ok _ _ _ _ _ _ _
                (request_attempt_ok w response rest Hnet Hok)).
Qed.



(** A retried operation that makes at most [c] fetches a run makes at
    most [(left + 1) * c] in all. *)
Lemma backoff_loop_fetches_bound {T}
    (fn : World → result RequestError T * World) (c : nat)
    (base : Q) (left attempt : nat) (w : World) :
  (∀ w0, fetches (trace (fn w0).2) ≤ fetches (trace w0) + c) →
  fetches (trace (withBackoff_loop fn base attempt left w).2)
  ≤ fetches (trace w) + (left + 1) * c.
Proof.
  intros Hfn. revert attempt w.
  induction left as [|left IH]; intros attempt w.
  - rewrite withBackoff_loop_zero. specialize (Hfn w). lia.
  - specialize (Hfn w). destruct (fn w) as [[v|e] w1] eqn:Hatt.
    + rewrite (withBackoff_loop_ok _ _ _ _ _ _ _ Hatt). simpl in *. lia.
    + rewrite (withBackoff_loop_retry _ _ _ _ _ _ _ Hatt).
      etrans; [apply IH|].
      destruct (backoff_step_effect base attempt w1) as [_ ->]. simpl in *. lia.
Qed.

Lemma closure_fetches_bound (env : StoreEnv) (options : OpenCloudClientOptions)
    (c : EconomyTransactionCommand) (w : World) :
  fetches (trace (updateEconomyProfile_closure env options c w).2)
  ≤ fetches (trace w) + (maxRetries_of options + 2).
Proof.
  unfold updateEconomyProfile_closure.
  assert (fetches (trace (getDataStoreEntry env options w).2)
          ≤ fetches (trace w) + (maxRetries_of options + 1)) as Hget.
  { unfold getDataStoreEntry, request, withBackoff.
    pose proof (request_loop_fetches_bound (backoffMs_of options)
                  (maxRetries_of options) 0 w) as Hb.
    destruct (withBackoff_loop request_attempt _ 0 _ w) as [[v|e] w1]; simpl in *.
    - done.
    - by destruct (is_missing_entry e). }
  destruct (getDataStoreEntry env options w) as [[current|e] w1]; simpl in *;
    [|lia].
  destruct (updateEconomyProfile_attempt _ _ c) as [result updated].
  destruct (negb (processed result)); simpl; [lia|].
  pose proof (request_loop_fetches_bound (backoffMs_of options) 0 0 w1) as Hpost.
  unfold postDataStoreEntry, request, withBackoff.
  destruct (withBackoff_loop request_attempt _ 0 0 w1) as [[v|e] w2];
    simpl in *; lia.
Qed.

(** X21 (the cost of one update).  [updateEconomyProfile] makes at most
    [(maxRetries + 1) * (maxRetries + 2)] fetches, whatever the server
    answers: each of the [maxRetries + 1] runs of its closure reads with
    up to [maxRetries + 1] fetches and writes with one.  With the default
    options that is 30 fetches, and there are answers of the server for
    which all 30 are made. *)
Theorem updateEconomyProfile_fetch_budget
    (env : StoreEnv) (options : OpenCloudClientOptions)
    (c : EconomyTransactionCommand) (w : World) :
  fetches (trace (updateEconomyProfile env options c w).2)
  ≤ fetches (trace w) + (maxRetries_of options + 1) * (maxRetries_of options + 2)
  ∧ (maxRetries_of default_options + 1) * (maxRetries_of default_options + 2) = 30
  ∧ fetches (trace (updateEconomyProfile (demo_env empty_profile) default_options
                      (credit_one_command "A")
                      {| net := worst_case_net; rng := []; trace := [] |}).2)
    = 30.
Proof.
  split_and!; [|done|by vm_compute].
  unfold updateEconomyProfile, withBackoff.
  apply backoff_loop_fetches_bound. intros w0. apply closure_fetches_bound.
Qed.

Lemma inserted_log_elem (l : list ProcessedTransactionRecord) (b : Ring)
    (r : ProcessedTransactionRecord) :
  r ∈ inserted_log b l → r ∈ l.
Proof.
  revert b. induction l as [|x l IH]; intros b; simpl; [done|].
  destruct (ProcessedTxnBuffer.record b x) as [[[|] per] b'].
  - intros [->|Hin]%elem_of_cons; [left|right; by eapply IH].
  - intros Hin. right. by eapply IH.
Qed.

(** A command whose identifier the read profile does not list is
    processed. *)
Lemma attempt_processes_new (now : Z) (profile : EconomyProfileData)
    (c : EconomyTransactionCommand) :
  c_txnId c ∉ txnId <$> profile_processed profile →
  processed (updateEconomyProfile_attempt now profile c).1 = true.
Proof.
  intros Hnew. unfold updateEconomyProfile_attempt.
  pose proof (reachable_inv 64 (profile_processed profile) ltac:(lia)) as Hinv.
  unfold ProcessedTxnBuffer.default_size.
  assert (ProcessedTxnBuffer.lookup
            (record_all (ProcessedTxnBuffer.fresh 64) (profile_processed profile))
            !! p_txnId (command_params c) = None) as Hlk.
  { apply (ring_inv_get_None _ _ _ _ Hinv). intros Hin. apply Hnew.
    apply list_elem_of_fmap in Hin as (r & Heq & Hr). simpl in Heq.
    apply list_elem_of_fmap. exists r. split; [done|].
    apply (subseteq_drop _ _ r) in Hr. by eapply inserted_log_elem. }
  rewrite (apply_new now _ (command_params c) _ Hlk). done.
Qed.


Lemma postDataStoreEntry_once (options : OpenCloudClientOptions) (w : World) :
  postDataStoreEntry options w = request_attempt w.
Proof.
  unfold postDataStoreEntry, request, withBackoff.
  apply withBackoff_loop_zero.
Qed.

(** One run of the closure on an accepted read followed by the answer to
    the write. *)
Lemma closure_read_then_write (env : StoreEnv) (options : OpenCloudClientOptions)
    (c : EconomyTransactionCommand) (w : World)
    (g p : HttpResponse) (rest : list HttpResponse) :
  net w = g :: p :: rest →
  attempt_fails g = false →
  c_txnId c ∉ txnId <$> profile_processed (profile_read env g) →
  ∃ now w',
    updateEconomyProfile_closure env options c w
    = (if attempt_fails p then Err (failure_of p)
       else Ok (updateEconomyProfile_attempt now (profile_read env g) c), w')
    ∧ net w' = rest
    ∧ fetches (trace w') = fetches (trace w) + 2.
Proof.
  intros Hnet Hg Hnew. unfold updateEconomyProfile_closure.
  rewrite (getDataStoreEntry_ok env options w g _ Hnet Hg).
  fold (profile_read env g).
  set (w1 := {| net := p :: rest; rng := rng w; trace := trace w ++ [EvFetch] |}).
  pose proof (attempt_processes_new (clock env w1) (profile_read env g) c Hnew)
    as Hproc.
  destruct (updateEconomyProfile_attempt (clock env w1) (profile_read env g) c)
    as [result updated] eqn:Eatt.
  simpl in Hproc. rewrite Hproc. simpl.
  rewrite postDataStoreEntry_once.
  exists (clock env w1). rewrite Eatt.
  destruct (attempt_fails p) eqn:Hp.
  - destruct (request_attempt_fails w1 p rest eq_refl Hp) as (Hres & Hn & Hf).
    destruct (request_attempt w1) as [res w2]. simpl in *. subst res.
    exists w2. split_and!; [done|done|].
    rewrite Hf, fetches_app. unfold fetches at 2. simpl. lia.
  - rewrite (request_attempt_ok w1 p rest eq_refl Hp).
    eexists. split_and!; [done|done|]. simpl.
    rewrite !fetches_app. unfold fetches at 2 3. simpl. lia.
Qed.



(** X23 (a refused write makes the update start over).  When the first
    write is refused, for a version conflict or for any other reason, and
    a retry is allowed, [updateEconomyProfile] reads the profile again and
    applies the command to what that second read returns; with the second
    write accepted, the result is the command applied to the second
    profile, after four fetches. *)
Theorem refused_write_reapplies_on_fresh_read
    (env : StoreEnv) (options : OpenCloudClientOptions)
    (c : EconomyTransactionCommand) (w : World)
    (g1 p1 g2 p2 : HttpResponse) (rest : list HttpResponse) :
  net w = g1 :: p1 :: g2 :: p2 :: rest →
  attempt_fails g1 = false → attempt_fails p1 = true →
  attempt_fails g2 = false → attempt_fails p2 = false →
  c_txnId c ∉ txnId <$> profile_processed (profile_read env g1) →
  c_txnId c ∉ txnId <$> profile_processed (profile_read env g2) →
  0 < maxRetries_of options →
  let run := updateEconomyProfile env options c w in
  (∃ now, run.1 = Ok (updateEconomyProfile_attempt now (profile_read env g2) c))
  ∧ net run.2 = rest
  ∧ fetches (trace run.2) = fetches (trace w) + 4.
Proof.
  intros Hnet Hg1 Hp1 Hg2 Hp2 Hnew1 Hnew2 Hretries run. subst run.
  unfold updateEconomyProfile, withBackoff.
  destruct (maxRetries_of options) as [|left]; [lia|].
  destruct (closure_read_then_write env options c w g1 p1 _ Hnet Hg1 Hnew1)
    as (now1 & w1 & Hrun1 & Hn1 & Hf1).
  rewrite Hp1 in Hrun1.
  rewrite (withBackoff_loop_retry _ _ _ _ _ _ _ Hrun1).
  destruct (backoff_step_effect (backoffMs_of options) 0 w1) as [Hn Hf].
  set (w2 := delay _ _) in *.
  destruct (closure_read_then_write env options c w2 g2 p2 rest)
    as (now2 & w3 & Hrun2 & Hn3 & Hf3); [by rewrite Hn, Hn1|done|done|].
  rewrite Hp2 in Hrun2.
  rewrite (withBackoff_loop_ok _ _ _ _ _ _ _ Hrun2). simpl.
  split_and!; [by exists now2|done|lia].
Qed.

Lemma refused_write_reapplies_on_fresh_read_witness :
  let w := {| net := [respond 200 None; respond 409 None; respond 200 None;
                      respond 200 None];
              rng := []; trace := [] |} in
  let run := updateEconomyProfile (demo_env empty_profile) default_options
               (credit_one_command "A") w in
  net run.2 = [] ∧ fetches (trace run.2) = fetches (trace w) + 4.
Proof.
  intros w run.
  refine (proj2 (refused_write_reapplies_on_fresh_read (demo_env empty_profile)
                   default_options (credit_one_command "A") w
                   (respond 200 None) (respond 409 None) (respond 200 None)
                   (respond 200 None) [] eq_refl eq_refl eq_refl eq_refl eq_refl
                   _ _ _)).
  - apply not_elem_of_nil.
  - apply not_elem_of_nil.
  - vm_compute. lia.
Defined.

(** X24 (the first command of a wallet).  When the store answers the read
    with 204, no entry yet, and accepts the write, [updateEconomyProfile]
    applies the command to the empty profile: the result is processed,
    its balance is the command's delta, and the stored profile holds that
    balance and the one record. *)
Theorem first_command_creates_the_wallet
    (env : StoreEnv) (options : OpenCloudClientOptions)
    (c : EconomyTransactionCommand) (w : World)
    (g p : HttpResponse) (rest : list HttpResponse) :
  net w = g :: p :: rest →
  attempt_fails g = false → http_status g = 204%Z →
  attempt_fails p = false →
  let run := updateEconomyProfile env options c w in
  ∃ now,
    run.1 = Ok ({| balance := c_delta c; processed := true;
                   record := candidate now 0 (command_params c) |},
                {| profile_balance := c_delta c;
                   profile_processed := [candidate now 0 (command_params c)] |})
    ∧ net run.2 = rest.
Proof.
  intros Hnet Hg H204 Hp run. subst run.
  assert (profile_read env g = empty_profile) as Hempty.
  { unfold profile_read, entry_of_response. by rewrite H204. }
  destruct (closure_read_then_write env options c w g p rest Hnet Hg)
    as (now & w' & Hrun & Hn & _).
  { rewrite Hempty. apply not_elem_of_nil. }
  rewrite Hp, Hempty in Hrun.
  unfold updateEconomyProfile, withBackoff.
  rewrite (withBackoff_loop_ok _ _ _ _ _ _ _ Hrun). simpl.
  exists now. split; [|done]. reflexivity.
Qed.

Lemma first_command_creates_the_wallet_witness :
  let w := {| net := [respond 204 None; respond 200 None]; rng := [];
              trace := [] |} in
  let run := updateEconomyProfile (demo_env empty_profile) default_options
               (credit_one_command "A") w in
  ∃ now,
    run.1 = Ok ({| balance := 1; processed := true;
                   record := candidate now 0 (credit_one "A") |},
                {| profile_balance := 1;
                   profile_processed := [candidate now 0 (credit_one "A")] |})
    ∧ net run.2 = [].
Proof.
  intros w run.
  exact (first_command_creates_the_wallet (demo_env empty_profile)
           default_options (credit_one_command "A") w
           (respond 204 None) (respond 200 None) [] eq_refl eq_refl eq_refl
           eq_refl).
Defined.

(* ================================================================== *)
(** * Properties of the Lua signer *)

Lemma length_string_of_list_ascii (l : list ascii) :
  String.length (string_of_list_ascii l) = length l.
Proof. induction l; simpl; by f_equal. Qed.

Lemma length_list_ascii_of_string (s : string) :
  length (list_ascii_of_string s) = String.length s.
Proof. induction s; simpl; by f_equal. Qed.

Lemma string_of_list_ascii_app (l1 l2 : list ascii) :
  string_of_list_ascii (l1 ++ l2)
  = string_of_list_ascii l1 +:+ string_of_list_ascii l2.
Proof. induction l1 as [|a l1 IH]; [done|]. simpl. by rewrite IH. Qed.

Lemma string_app_assoc (s1 s2 s3 : string) :
  (s1 +:+ s2) +:+ s3 = s1 +:+ (s2 +:+ s3).
Proof.
  induction s1 as [|a s1 IH]; [done|].
  change (String a ((s1 +:+ s2) +:+ s3) = String a (s1 +:+ (s2 +:+ s3))).
  by rewrite IH.
Qed.

Lemma length_string_app (s1 s2 : string) :
  String.length (s1 +:+ s2) = String.length s1 + String.length s2.
Proof.
  induction s1 as [|a s1 IH]; [done|].
  change (S (String.length (s1 +:+ s2))
          = S (String.length s1 + String.length s2)).
  by rewrite IH.
Qed.

Lemma toLowerCase_hex_encode (bs : Buffer) :
  toLowerCase (hex_encode bs) = hex_encode bs.
Proof.
  rewrite <-(toLowerCase_toUpperCase_hex bs) at 1.
  by rewrite toLowerCase_idemp, toLowerCase_toUpperCase_hex.
Qed.

(** Linear arithmetic with division and remainder by constants. *)
Ltac mod_lia := zify; Z.div_mod_to_equations; lia.

(** The zeros the padding loop appends, and that it needs fewer than 64
    iterations to append them. *)
Lemma pad_zeros_spec (fuel : nat) (bytes : list Z) :
  (56 + 64 - length bytes `mod` 64) `mod` 64 ≤ fuel →
  LuaCrypto.pad_zeros fuel bytes
  = bytes ++ replicate ((56 + 64 - length bytes `mod` 64) `mod` 64) 0%Z.
Proof.
  revert bytes.
  induction fuel as [|fuel IH]; intros bytes Hfuel;
    cbn [LuaCrypto.pad_zeros];
    destruct (decide (length bytes `mod` 64 = 56)) as [Heq|Hne].
  - replace ((56 + 64 - length bytes `mod` 64) `mod` 64) with 0 by mod_lia.
    by rewrite app_nil_r.
  - exfalso. mod_lia.
  - replace ((56 + 64 - length bytes `mod` 64) `mod` 64) with 0 by mod_lia.
    by rewrite app_nil_r.
  - rewrite IH; rewrite length_app; cbn [length]; [|mod_lia].
    replace ((56 + 64 - length bytes `mod` 64) `mod` 64)
      with (S ((56 + 64 - (length bytes + 1) `mod` 64) `mod` 64)) by mod_lia.
    cbn [replicate]. by rewrite <-(assoc_L (++)).
Qed.

(** X25 (the padding of the hash).  For every message, the bytes
    [sha256Binary] hashes make whole blocks of 64, are between 9 and 72
    more than the message, begin with the message followed by [0x80], and
    are all bytes; the loop over the chunks reads no index outside them;
    and the padding loop ends by its own test within 64 iterations (more
    fuel changes nothing). *)
Theorem sha256_padding_is_whole_blocks (message : string) (fuel : nat) :
  let bytes := LuaCrypto.padded message in
  let n := String.length message in
  length bytes `mod` 64 = 0
  ∧ n + 9 ≤ length bytes ≤ n + 72
  ∧ take (n + 1) bytes
    = (LuaCrypto.byte_of <$> list_ascii_of_string message) ++ [128%Z]
  ∧ Forall (λ b, (0 ≤ b < 256)%Z) bytes
  ∧ (length bytes + 63) / 64 * 64 = length bytes
  ∧ (64 ≤ fuel →
     LuaCrypto.pad_zeros fuel
       ((LuaCrypto.byte_of <$> list_ascii_of_string message) ++ [128%Z])
     = LuaCrypto.pad_zeros 64
         ((LuaCrypto.byte_of <$> list_ascii_of_string message) ++ [128%Z])).
Proof.
  intros bytes n. subst bytes n. unfold LuaCrypto.padded.
  set (msg := LuaCrypto.byte_of <$> list_ascii_of_string message).
  assert (length msg = String.length message) as Hlen
    by (subst msg; by rewrite length_fmap, length_list_ascii_of_string).
  assert (∀ f, 64 ≤ f →
            LuaCrypto.pad_zeros f (msg ++ [128%Z])
            = (msg ++ [128%Z])
              ++ replicate ((56 + 64 - length (msg ++ [128%Z]) `mod` 64) `mod` 64)
                           0%Z) as Hpad.
  { intros f Hf. apply pad_zeros_spec. mod_lia. }
  change 0x80%Z with 128%Z.
  cbv zeta.
  rewrite (Hpad 64) by lia.
  set (k := (56 + 64 - length (msg ++ [128%Z]) `mod` 64) `mod` 64).
  assert (length (msg ++ [128%Z]) = String.length message + 1) as Hl1
    by (rewrite length_app; cbn [length]; lia).
  split_and!.
  - rewrite !length_app, !length_fmap, length_replicate. cbn [length].
    rewrite Hlen. subst k. rewrite Hl1. mod_lia.
  - rewrite !length_app, !length_fmap, length_replicate. cbn [length].
    rewrite Hlen. subst k. rewrite Hl1. mod_lia.
  - rewrite !length_app, !length_fmap, length_replicate. cbn [length].
    rewrite Hlen. subst k. rewrite Hl1. mod_lia.
  - rewrite <-Hl1. rewrite <-!(assoc_L (++) (msg ++ [128%Z])).
    by rewrite take_app_length.
  - rewrite !Forall_app. split_and!.
    + subst msg. apply Forall_fmap, Forall_forall. intros c _. simpl.
      unfold LuaCrypto.byte_of.
      pose proof (N_ascii_bounded c). lia.
    + repeat constructor; lia.
    + apply Forall_replicate. lia.
    + apply Forall_fmap, Forall_forall. intros sh _. simpl.
      unfold LuaCrypto.band, LuaCrypto.u32.
      change (255 `mod` 4294967296)%Z with (Z.ones 8).
      rewrite Z.land_ones by lia. apply Z.mod_pos_bound. lia.
    + apply Forall_fmap, Forall_forall. intros sh _. simpl.
      unfold LuaCrypto.band, LuaCrypto.u32.
      change (255 `mod` 4294967296)%Z with (Z.ones 8).
      rewrite Z.land_ones by lia. apply Z.mod_pos_bound. lia.
  - rewrite !length_app, !length_fmap, length_replicate. cbn [length].
    rewrite Hlen. subst k. rewrite Hl1. mod_lia.
  - intros Hf. by rewrite (Hpad fuel) by lia.
Qed.

Lemma sha256_padding_is_whole_blocks_witness :
  LuaCrypto.pad_zeros 1000
    ((LuaCrypto.byte_of <$> list_ascii_of_string "abc") ++ [128%Z])
  = LuaCrypto.pad_zeros 64
      ((LuaCrypto.byte_of <$> list_ascii_of_string "abc") ++ [128%Z]).
Proof.
  refine (proj2 (proj2 (proj2 (proj2 (proj2
            (sha256_padding_is_whole_blocks "abc" 1000))))) _).
  lia.
Defined.

(** The digest has thirty-two characters, whatever the message. *)
Lemma length_sha256Binary (message : string) :
  String.length (LuaCrypto.sha256Binary message) = 32.
Proof.
  unfold LuaCrypto.sha256Binary. cbv zeta.
  destruct (foldl _ _ _) as [[[[[[[h0 h1] h2] h3] h4] h5] h6] h7].
  unfold LuaCrypto.toBytes. by rewrite length_string_of_list_ascii.
Qed.

Lemma length_xor_pad (key : string) (pad : Z) :
  String.length (LuaCrypto.xor_pad key pad) = String.length key.
Proof.
  unfold LuaCrypto.xor_pad.
  by rewrite length_string_of_list_ascii, length_fmap,
    length_list_ascii_of_string.
Qed.

(** A signature is the lowercase hexadecimal writing of 32 bytes. *)
Lemma hmacSha256_hex (key message : string) :
  ∃ digest : Buffer,
    length digest = 32 ∧ LuaCrypto.hmacSha256 key message = hex_encode digest.
Proof.
  unfold LuaCrypto.hmacSha256. cbv zeta. unfold LuaCrypto.toHex.
  eexists. split; [|reflexivity].
  by rewrite length_list_ascii_of_string, length_sha256Binary.
Qed.

(** X26 (the signature the game server sends).  For every key and
    message, [hmacSha256] returns 64 characters that lowercasing leaves
    unchanged and that decoding from and encoding to hexadecimal gives
    back; so [verifySignature] of the audit sink accepts it exactly when
    it is, character for character, the signature the sink expects. *)
Theorem game_server_signature_shape
    (rt : Runtime) (payload : Payload) (key message : string) :
  let signature := LuaCrypto.hmacSha256 key message in
  String.length signature = 64
  ∧ toLowerCase signature = signature
  ∧ hex_encode (hex_decode signature) = signature
  ∧ (hmac_digest_32 rt →
     verifySignature rt payload (Some signature)
     = Ok (bool_decide (signature = expected_signature rt payload))).
Proof.
  intros signature. subst signature.
  destruct (hmacSha256_hex key message) as (digest & Hlen & ->).
  split_and!.
  - rewrite length_hex_encode. lia.
  - apply toLowerCase_hex_encode.
  - by rewrite hex_decode_encode.
  - intros H32. rewrite verifySignature_decides by done.
    by rewrite toLowerCase_hex_encode.
Qed.

Lemma game_server_signature_shape_witness :
  verifySignature demo_runtime (demo_payload "A" 10)
    (Some (LuaCrypto.hmacSha256 "key" "message"))
  = Ok (bool_decide (LuaCrypto.hmacSha256 "key" "message"
                     = expected_signature demo_runtime (demo_payload "A" 10))).
Proof.
  exact (proj2 (proj2 (proj2
           (game_server_signature_shape demo_runtime (demo_payload "A" 10)
              "key" "message"))) demo_digest_32).
Defined.

(** [hmacSha256] depends on its key through the 64-byte block only. *)
Lemma hmacSha256_key_block (key message : string) (block : string) :
  (if decide (String.length
                (if decide (64 < String.length key)
                 then LuaCrypto.sha256Binary key else key) < 64)
   then (if decide (64 < String.length key)
         then LuaCrypto.sha256Binary key else key)
        +:+ string_of_list_ascii
              (replicate
                 (64 - String.length
                         (if decide (64 < String.length key)
                          then LuaCrypto.sha256Binary key else key))
                 (LuaCrypto.char_of 0))
   else (if decide (64 < String.length key)
         then LuaCrypto.sha256Binary key else key)) = block →
  LuaCrypto.hmacSha256 key message
  = LuaCrypto.toHex
      (LuaCrypto.sha256Binary
         (LuaCrypto.xor_pad block 0x5C
          +:+ LuaCrypto.sha256Binary (LuaCrypto.xor_pad block 0x36 +:+ message))).
Proof. intros <-. reflexivity. Qed.

Lemma string_app_nul (key : string) (n : nat) :
  (key +:+ String (LuaCrypto.char_of 0) EmptyString)
    +:+ string_of_list_ascii (replicate n (LuaCrypto.char_of 0))
  = key +:+ string_of_list_ascii (replicate (S n) (LuaCrypto.char_of 0)).
Proof. by rewrite string_app_assoc. Qed.

(** X27 (the key of the signer).  A key shorter than a block is filled
    with NUL bytes, so the key followed by one more NUL byte signs every
    message the same way; a key longer than a block is replaced by its
    digest, so the digest used as the key signs the same way too. *)
Theorem hmac_key_is_made_one_block (key message : string) :
  (String.length key < 64 →
   LuaCrypto.hmacSha256 (key +:+ String (LuaCrypto.char_of 0) EmptyString) message
   = LuaCrypto.hmacSha256 key message)
  ∧ (64 < String.length key →
     LuaCrypto.hmacSha256 key message
     = LuaCrypto.hmacSha256 (LuaCrypto.sha256Binary key) message).
Proof.
  split; intros Hlen.
  - set (key' := key +:+ String (LuaCrypto.char_of 0) EmptyString).
    assert (String.length key' = S (String.length key)) as Hlen'
      by (subst key'; rewrite length_string_app; simpl; lia).
    erewrite (hmacSha256_key_block key'); [|reflexivity].
    erewrite (hmacSha256_key_block key); [|reflexivity].
    rewrite !Hlen'.
    rewrite (decide_False (P := 64 < S (String.length key))) by lia.
    rewrite (decide_False (P := 64 < String.length key)) by lia.
    rewrite (decide_True (P := String.length key < 64)) by lia.
    rewrite Hlen'.
    destruct (decide (S (String.length key) < 64)) as [Hlt|Hge].
    + subst key'. rewrite string_app_nul.
      by replace (S (64 - S (String.length key)))
        with (64 - String.length key) by lia.
    + replace (64 - String.length key) with 1 by lia. done.
  - erewrite (hmacSha256_key_block key); [|reflexivity].
    erewrite (hmacSha256_key_block (LuaCrypto.sha256Binary key)); [|reflexivity].
    rewrite (decide_True (P := 64 < String.length key)) by lia.
    rewrite !length_sha256Binary.
    rewrite (decide_False (P := 64 < 32)) by lia.
    by rewrite !length_sha256Binary.
Qed.

Lemma hmac_key_is_made_one_block_witness :
  LuaCrypto.hmacSha256 ("Jefe" +:+ String (LuaCrypto.char_of 0) EmptyString)
    "what do ya want for nothing?"
  = LuaCrypto.hmacSha256 "Jefe" "what do ya want for nothing?"
  ∧ LuaCrypto.hmacSha256
      "0123456789012345678901234567890123456789012345678901234567890123456789"
      "m"
    = LuaCrypto.hmacSha256
        (LuaCrypto.sha256Binary
           "0123456789012345678901234567890123456789012345678901234567890123456789")
        "m".
Proof.
  split.
  - refine (proj1 (hmac_key_is_made_one_block "Jefe"
                     "what do ya want for nothing?") _).
    simpl. lia.
  - refine (proj2 (hmac_key_is_made_one_block
                     "0123456789012345678901234567890123456789012345678901234567890123456789"
                     "m") _).
    simpl. lia.
Defined.

(** The embedding computes the published digests: SHA-256 of [abc] and
    the second test case of RFC 4231. *)
Example sha256Binary_abc :
  LuaCrypto.toHex (LuaCrypto.sha256Binary "abc")
  = "ba7816bf8f01cfea414140de5dae2223b00361a396177a9cb410ff61f20015ad".
Proof. vm_compute. reflexivity. Qed.

Example hmacSha256_rfc4231 :
  LuaCrypto.hmacSha256 "Jefe" "what do ya want for nothing?"
  = "5bdcc146bf60754e6a042426089575c75a003f089d2739839dec58b964ec3843".
Proof. vm_compute. reflexivity. Qed.
